(** * artificer: archive construction and image mutation

    A shallow embedding of [main.go] (package [main] of
    justwatchcom/artificer).  The functions of the program
    ([createTarFile], [tarwalk], [applyConfig], [addNewLayerFromFiles],
    [buildNewImage]) are transcribed statement by statement; the Go
    standard library and go-containerregistry operations they call are
    given small executable models, one Rocq module per Go package. *)

From Stdlib Require Import ZArith Lia Ascii String List Permutation.
From stdpp Require Import base list strings.

Local Open Scope Z_scope.
Local Open Scope list_scope.
Local Open Scope stdpp_scope.

(** ** Errors and results *)

(** Go's [error] values.  [errors.New] (also standing for [fmt.Errorf] and
    for the errors of system calls) carries a message; [errors.Wrap] of
    github.com/pkg/errors annotates a cause with a message. *)
Module errors.

Inductive error : Type :=
| New (msg : string)
| Wrap (cause : error) (msg : string).

(** [err.Error()]: a wrapped error prints as "msg: cause". *)
Fixpoint Error (e : error) : string :=
  match e with
  | New msg => msg
  | Wrap cause msg => msg +:+ ": " +:+ Error cause
  end.

(** [errors.Cause]: the innermost error. *)
Fixpoint Cause (e : error) : error :=
  match e with
  | New msg => New msg
  | Wrap cause _ => Cause cause
  end.

End errors.

Abbreviation error := errors.error.

(** A Go result pair [(value, err)]: exactly one side is meaningful. *)
Inductive result (A : Type) : Type :=
| OK (a : A)
| Err (e : error).
Arguments OK {A} a.
Arguments Err {A} e.

Definition is_ok {A} (r : result A) : bool :=
  match r with OK _ => true | Err _ => false end.

(** [if err != nil { return nil, errors.Wrap(err, msg) }] *)
Definition wrap {A} (msg : string) (r : result A) : result A :=
  match r with
  | OK a => OK a
  | Err e => Err (errors.Wrap e msg)
  end.

Definition bytes := list Byte.byte.

(** ** Package [strings] *)
Module strings.

(** [strings.HasPrefix(s, prefix)] *)
Fixpoint HasPrefix (s prefix : string) : bool :=
  match prefix, s with
  | EmptyString, _ => true
  | String p prefix', String c s' => Ascii.eqb p c && HasPrefix s' prefix'
  | String _ _, EmptyString => false
  end.

(** [s[n:]] *)
Fixpoint drop (n : nat) (s : string) : string :=
  match n, s with
  | O, _ => s
  | S n', String _ s' => drop n' s'
  | S _, EmptyString => EmptyString
  end.

(** [strings.TrimPrefix(s, prefix)]: [s] without the leading [prefix];
    [s] itself when it does not start with [prefix]. *)
Definition TrimPrefix (s prefix : string) : string :=
  if HasPrefix s prefix then drop (String.length prefix) s else s.

(** [strings.Split(s, "/")] *)
Fixpoint Split (s : string) : list string :=
  match s with
  | EmptyString => [EmptyString]
  | String c s' =>
      if Ascii.eqb c "/" then EmptyString :: Split s'
      else match Split s' with
           | x :: xs => String c x :: xs
           | [] => [String c EmptyString]
           end
  end.

(** [strings.Join(elems, "/")] *)
Definition Join (elems : list string) : string := String.concat "/" elems.

End strings.

(** The elements of a path: what stands between its separators. *)
Definition elements (path : string) : list string :=
  List.filter (fun c => negb (String.eqb c EmptyString)) (strings.Split path).

(** The result monad, for code that returns at the first error. *)
Definition rbind {A B} (r : result A) (k : A → result B) : result B :=
  match r with
  | OK a => k a
  | Err e => Err e
  end.

Declare Scope result_scope.
Delimit Scope result_scope with result.
Notation "x ←? r ; k" := (rbind r (fun x => k))
  (at level 100, r at next level, right associativity) : result_scope.

(** A [for ... range] loop whose body may return an error. *)
Fixpoint range {S A : Type} (body : A → S → result S) (l : list A) (s : S)
  : result S :=
  match l with
  | [] => OK s
  | a :: l' => (s ←? body a s; range body l' s)%result
  end.

(** ** Package [sort] *)
Module sort.

Fixpoint insert (x : string) (l : list string) : list string :=
  match l with
  | [] => [x]
  | y :: l' => if String.leb x y then x :: l else y :: insert x l'
  end.

(** [sort.Strings]: increasing byte-wise lexicographic order. *)
Definition Strings (l : list string) : list string :=
  fold_right insert [] l.

End sort.

(** ** Package [os]: a snapshot of the file system *)
Module os.

Inductive special : Type :=
| BlockDevice | CharDevice | NamedPipe | Socket | Irregular.

(** The type bits of an [os.FileMode]; a mode has exactly one type. *)
Inductive FileType : Type :=
| Regular
| Directory
| Symlink
| Other (k : special).

Record FileMode : Type := mkMode { Type_ : FileType; Perm : Z }.

(** [m.IsDir()] and [m.IsRegular()] *)
Definition ModeIsDir (m : FileMode) : bool :=
  match Type_ m with Directory => true | _ => false end.
Definition IsRegular (m : FileMode) : bool :=
  match Type_ m with Regular => true | _ => false end.

(** A node of the file system tree, as [Lstat], [Readdirnames] and
    [Open] show it.  A regular file has its content, and possibly an
    error that [Open] reports; a directory has its listing (in the order
    the system returns it) where each name comes with the outcome of
    [Lstat] on it, or the error of reading the listing; a symbolic link
    has what it resolves to. *)
Inductive node : Type :=
| File (perm mtime : Z) (content : bytes) (openErr : option error)
| Dir (perm mtime : Z) (listing : result (list (string * result node)))
| Link (perm mtime : Z) (target : result node)
| Special (k : special) (perm mtime : Z).

(** What each top-level path names: [Err] when [Lstat] fails on it. *)
Definition FS : Type := string → result node.

(** [os.FileInfo]; [Sys] is the underlying node. *)
Record FileInfo : Type := mkInfo {
  Name : string;
  Size : Z;
  Mode : FileMode;
  ModTime : Z;
  Sys : node
}.

Definition IsDir (fi : FileInfo) : bool := ModeIsDir (Mode fi).

(** The name a [FileInfo] reports: the path without trailing separators
    and without its leading directories. *)
Definition basename (path : string) : string :=
  match last (elements path) with
  | Some c => c
  | None => if String.eqb path EmptyString then EmptyString else "/"
  end.

Definition mode_of (n : node) : FileMode :=
  match n with
  | File perm _ _ _ => mkMode Regular perm
  | Dir perm _ _ => mkMode Directory perm
  | Link perm _ _ => mkMode Symlink perm
  | Special k perm _ => mkMode (Other k) perm
  end.

Definition mtime_of (n : node) : Z :=
  match n with
  | File _ t _ _ | Dir _ t _ | Link _ t _ | Special _ _ t => t
  end.

(** The size is that of the content for a regular file; for the other
    types it is system-dependent and the program does not use it. *)
Definition size_of (n : node) : Z :=
  match n with
  | File _ _ content _ => Z.of_nat (length content)
  | _ => 0
  end.

(** The [FileInfo] that [Lstat] returns for the node found at [path]. *)
Definition info (path : string) (n : node) : FileInfo :=
  mkInfo (basename path) (size_of n) (mode_of n) (mtime_of n) n.

Definition Lstat (fs : FS) (path : string) : result FileInfo :=
  (n ←? fs path; OK (info path n))%result.

(** A symbolic link is followed to what it resolves to. *)
Fixpoint follow (n : node) : result node :=
  match n with
  | Link _ _ (OK t) => follow t
  | Link _ _ (Err e) => Err e
  | _ => OK n
  end.

(** [os.Stat]: as [Lstat], through symbolic links. *)
Definition Stat (fs : FS) (path : string) : result FileInfo :=
  (n ←? fs path; t ←? follow n; OK (info path t))%result.

(** [os.Open(path)] followed by reading the file to its end, for the
    regular file that [fi] describes. *)
Definition Open (fi : FileInfo) : result bytes :=
  match Sys fi with
  | File _ _ content None => OK content
  | File _ _ _ (Some e) => Err e
  | _ => Err (errors.New "read: is not a regular file")
  end.

Definition ErrNotExist : error := errors.New "no such file or directory".

End os.

(** ** Package [path/filepath] (Unix: the separator is '/') *)
Module filepath.

(** One step of the lexical processing of [Clean]: [stack] holds the
    path elements kept so far, innermost first. *)
Definition clean_step (rooted : bool) (stack : list string) (c : string)
  : list string :=
  if String.eqb c EmptyString || String.eqb c "." then stack
  else if String.eqb c ".." then
    match stack with
    | top :: below =>
        if String.eqb top ".." then c :: stack else below
    | [] => if rooted then [] else [c]
    end
  else c :: stack.

Definition is_rooted (path : string) : bool :=
  match path with
  | String c _ => Ascii.eqb c "/"
  | EmptyString => false
  end.

(** [filepath.Clean]: multiple separators collapse, "." elements
    disappear, an inner ".." removes the element before it, a ".." at the
    start of a rooted path disappears; the empty result is ".". *)
Definition Clean (path : string) : string :=
  let rooted := is_rooted path in
  let stack := fold_left (clean_step rooted) (strings.Split path) [] in
  if rooted then "/" +:+ strings.Join (rev stack)
  else match stack with
       | [] => "."
       | _ => strings.Join (rev stack)
       end.

(** [filepath.Join(a, b)]: empty elements are ignored, the rest is joined
    with the separator and cleaned. *)
Definition Join (a b : string) : string :=
  if negb (String.eqb a EmptyString) then Clean (a +:+ "/" +:+ b)
  else if negb (String.eqb b EmptyString) then Clean b
  else EmptyString.

(** [filepath.Base]: the last element of the path, trailing separators
    removed first; "." for the empty path, "/" for a path of separators
    only. *)
Definition Base (path : string) : string :=
  if String.eqb path EmptyString then "."
  else match last (elements path) with
       | Some c => c
       | None => "/"
       end.

(** [filepath.ToSlash]: replaces the separator by '/'; the identity on
    Unix. *)
Definition ToSlash (path : string) : string := path.

(** [lstat(filename)] for [filename] = directory + [name], looked up in the
    listing of the directory: [found] receives the node, [missing] the
    error. *)
Fixpoint lstat {R : Type} (name : string) (found : os.node → R)
  (missing : error → R) (listing : list (string * result os.node)) : R :=
  match listing with
  | [] => missing os.ErrNotExist
  | (k, r) :: listing' =>
      if String.eqb k name then
        match r with
        | OK child => found child
        | Err e => missing e
        end
      else lstat name found missing listing'
  end.

(** [filepath.Walk] calls [walkFn] on the root and then on all that is below
    it, each directory before its content and the names of a directory in
    sorted order.  [walkFn(path, info, err)] receives [Err] when [Lstat] on
    the path or reading the directory failed, and threads the state [S] that
    the Go closure captures.  (No error of this program is [SkipDir], so
    that case of [Walk] is left out.) *)
Section Walk.
Context {S : Type}.
Variable walkFn : string → result os.FileInfo → S → result S.

Fixpoint walk (path : string) (n : os.node) (s : S) : result S :=
  match n with
  | os.Dir _ _ (Err e) =>
      (* readDirNames failed: walk returns what walkFn returns *)
      walkFn path (Err e) s
  | os.Dir _ _ (OK listing) =>
      (s ←? walkFn path (OK (os.info path n)) s;
       range
         (fun name s =>
            let filename := Join path name in
            lstat name
              (fun child => walk filename child s)
              (fun e => walkFn filename (Err e) s)
              listing)
         (sort.Strings (map fst listing)) s)%result
  | _ => walkFn path (OK (os.info path n)) s
  end.

Definition Walk (fs : os.FS) (root : string) (s : S) : result S :=
  match fs root with
  | Err e => walkFn root (Err e) s
  | OK n => walk root n s
  end.

End Walk.

End filepath.

(** ** Package [archive/tar] *)
Module tar.

Inductive Typeflag : Type :=
| TypeReg | TypeDir | TypeSymlink | TypeChar | TypeBlock | TypeFifo.

Record Header : Type := mkHeader {
  Typeflag_ : Typeflag;
  Name : string;
  Linkname : string;
  Size : Z;
  Mode : Z;
  ModTime : Z
}.

Definition set_Name (h : Header) (name : string) : Header :=
  mkHeader (Typeflag_ h) name (Linkname h) (Size h) (Mode h) (ModTime h).

(** [tar.FileInfoHeader(fi, link)]: the header has the name, permission
    bits and modification time of [fi]; the size only for a regular file;
    a directory name gets a trailing slash; [link] is the target recorded
    for a symbolic link.  Sockets and unknown file types are refused. *)
Definition FileInfoHeader (fi : os.FileInfo) (link : string) : result Header :=
  let fm := os.Mode fi in
  let h := fun tf name linkname size =>
    mkHeader tf name linkname size (os.Perm fm) (os.ModTime fi) in
  match os.Type_ fm with
  | os.Regular => OK (h TypeReg (os.Name fi) EmptyString (os.Size fi))
  | os.Directory => OK (h TypeDir (os.Name fi +:+ "/") EmptyString 0)
  | os.Symlink => OK (h TypeSymlink (os.Name fi) link 0)
  | os.Other os.CharDevice => OK (h TypeChar (os.Name fi) EmptyString 0)
  | os.Other os.BlockDevice => OK (h TypeBlock (os.Name fi) EmptyString 0)
  | os.Other os.NamedPipe => OK (h TypeFifo (os.Name fi) EmptyString 0)
  | os.Other os.Socket => Err (errors.New "archive/tar: sockets not supported")
  | os.Other os.Irregular => Err (errors.New "archive/tar: unknown file mode")
  end.

(** One member of the archive: its header and the bytes written for it. *)
Record entry : Type := mkEntry { hdr : Header; body : bytes }.

(** The state of a [tar.Writer]: the members written so far, the current
    one first. *)
Definition Writer : Type := list entry.

(** The archive a writer has produced, in the order of writing. *)
Definition Entries (tw : Writer) : list entry := rev tw.

(** [tar.NewWriter(w)] on a buffer holding [buf]. *)
Definition NewWriter (buf : list entry) : Writer := rev buf.

Definition ErrWriteTooLong : error := errors.New "archive/tar: write too long".

(** How many bytes of the current member are still to be written. *)
Definition remaining (tw : Writer) : Z :=
  match tw with
  | [] => 0
  | e :: _ => Size (hdr e) - Z.of_nat (length (body e))
  end.

(** [tw.WriteHeader(hdr)]: fails when the previous member has not received
    all the bytes its header announced; then starts a new member. *)
Definition WriteHeader (h : Header) (tw : Writer) : result Writer :=
  if 0 <? remaining tw
  then Err (errors.New "archive/tar: missed writing bytes")
  else OK (mkEntry h [] :: tw).

(** [tw.Write(b)]: appends to the current member, at most as many bytes as
    its header announced. *)
Definition Write (b : bytes) (tw : Writer) : result Writer :=
  if remaining tw <? Z.of_nat (length b) then Err ErrWriteTooLong
  else match tw with
       | [] => OK []
       | e :: tw' => OK (mkEntry (hdr e) (body e ++ b) :: tw')
       end.

End tar.

(** ** Package [io] *)
Module io.

(** [io.Copy(tw, file)] where [file] delivers [content]. *)
Definition Copy (tw : tar.Writer) (content : bytes) : result tar.Writer :=
  tar.Write content tw.

End io.

(** ** The archiver of [main.go] *)

Local Open Scope result_scope.

(** The function literal that [tarwalk] passes to [filepath.Walk]; it
    captures [source], [baseDir] and the writer. *)
Definition tarwalk_func (source baseDir : string)
  (path : string) (r : result os.FileInfo) (tw : tar.Writer)
  : result tar.Writer :=
  info ←? r;
  header ←? tar.FileInfoHeader info (os.Name info);
  let header :=
    if negb (String.eqb baseDir EmptyString) then
      tar.set_Name header
        (filepath.ToSlash
           (filepath.Join baseDir (strings.TrimPrefix path source)))
    else header in
  tw ←? tar.WriteHeader header tw;
  if os.IsDir info then OK tw
  else if negb (os.IsRegular (os.Mode info)) then OK tw
  else
    file ←? os.Open info;
    io.Copy tw file.

(** [tarwalk(source, tw)] *)
Definition tarwalk (fs : os.FS) (source : string) (tw : tar.Writer)
  : result tar.Writer :=
  info ←? os.Stat fs source;
  let baseDir := if os.IsDir info then filepath.Base source else EmptyString in
  filepath.Walk (tarwalk_func source baseDir) fs source tw.

(** [createTarFile(paths, writer)]: the content of [writer] after the
    deferred [tw.Close()], or the error. *)
Definition createTarFile (fs : os.FS) (paths : list string)
  (writer : list tar.entry) : result (list tar.entry) :=
  let tw := tar.NewWriter writer in
  tw ←? range (tarwalk fs) paths tw;
  OK (tar.Entries tw).

(** ** Package [v1] of go-containerregistry: images *)
Module v1.

(** A digest: one read from a fetched manifest or config, or the SHA-256 of
    an archive stream, of its gzip-compressed form when [compressed]; the
    function itself is left symbolic. *)
Inductive Hash : Type :=
| Hex (digest : string)
| SHA256 (compressed : bool) (stream : list tar.entry).

(** [v1.Config]: the runtime configuration of the container. *)
Record Config : Type := mkConfig {
  Env : list string;
  Cmd : list string;
  Entrypoint : list string;
  WorkingDir : string;
  User : string
}.

Record History : Type := mkHistory { CreatedBy : string; EmptyLayer : bool }.

(** [v1.ConfigFile]: the config blob of an image.  [DiffIDs] is
    [RootFS.DiffIDs], the diff-ids of the layers in order; [Config_] is the
    field [Config]. *)
Record ConfigFile : Type := mkConfigFile {
  Created : Z;
  Author : string;
  History_ : list History;
  DiffIDs : list Hash;
  Config_ : Config
}.

(** [v1.Manifest], reduced to the digests of its layers in order. *)
Record Manifest : Type := mkManifest { Layers : list Hash }.

(** [v1.Layer]: a layer of a fetched image, known by its digests, or a
    layer made from an archive stream by [tarball.LayerFromOpener]. *)
Inductive Layer : Type :=
| RemoteLayer (digest diffID : Hash)
| TarballLayer (stream : list tar.entry).

Definition DiffID (l : Layer) : Hash :=
  match l with
  | RemoteLayer _ diffID => diffID
  | TarballLayer stream => SHA256 false stream
  end.

Definition Digest (l : Layer) : Hash :=
  match l with
  | RemoteLayer digest _ => digest
  | TarballLayer stream => SHA256 true stream
  end.

(** A [*v1.ConfigFile]: the address of a config object in the heap. *)
Definition ptr : Type := nat.

(** The two implementations of the interface [v1.Image] that the program
    meets.  A fetched image ([remote.Image]) keeps the raw manifest and
    config blobs, which may fail to load or to parse, and its method
    [ConfigFile()] parses the blob into a new object at each call.  An
    image made by package [mutate] holds a [*v1.ConfigFile], and its method
    [ConfigFile()] returns that pointer. *)
Inductive Image : Type :=
| RemoteImage (manifest : result Manifest) (config : result ConfigFile)
    (layers : list Layer)
| MutateImage (manifest : Manifest) (configFile : ptr) (layers : list Layer).

End v1.

(** ** The state the image functions run in *)

(** The config objects allocated so far (a [*v1.ConfigFile] is an index
    into [heap]), the clock that [time.Now] reads and the file system. *)
Record World : Type := mkWorld {
  heap : list v1.ConfigFile;
  clock : Z;
  files : os.FS
}.

(** A computation returns a value or an error, and the state it leaves;
    what was written before an error stays written. *)
Definition M (A : Type) : Type := World → result A * World.

Definition ret {A} (a : A) : M A := fun w => (OK a, w).
Definition fail {A} (e : error) : M A := fun w => (Err e, w).
Definition bind {A B} (m : M A) (k : A → M B) : M B :=
  fun w =>
    match m w with
    | (OK a, w') => k a w'
    | (Err e, w') => (Err e, w')
    end.

Declare Scope M_scope.
Delimit Scope M_scope with M.
Notation "x ←$ m ; k" := (bind m (fun x => k))
  (at level 100, m at next level, right associativity) : M_scope.
Notation "m >>$ k" := (bind m (fun _ => k))
  (at level 100, right associativity) : M_scope.

(** [if err != nil { return nil, errors.Wrap(err, msg) }] in [M]. *)
Definition wrapM {A} (msg : string) (m : M A) : M A :=
  fun w => let (r, w') := m w in (wrap msg r, w').

Definition lift {A} (r : result A) : M A := fun w => (r, w).

Definition nilDeref : error :=
  errors.New "invalid memory address or nil pointer dereference".

(** [new(v1.ConfigFile)] initialised with [cf]. *)
Definition alloc (cf : v1.ConfigFile) : M v1.ptr :=
  fun w => (OK (length (heap w)),
            mkWorld (heap w ++ [cf]) (clock w) (files w)).

(** Reading the object that [p] points to. *)
Definition load (p : v1.ptr) : M v1.ConfigFile :=
  fun w =>
    match heap w !! p with
    | Some cf => (OK cf, w)
    | None => (Err nilDeref, w)
    end.

(** An assignment to fields of the object that [p] points to. *)
Definition update (p : v1.ptr) (f : v1.ConfigFile → v1.ConfigFile) : M unit :=
  fun w =>
    match heap w !! p with
    | Some cf => (OK tt, mkWorld (<[p := f cf]> (heap w)) (clock w) (files w))
    | None => (Err nilDeref, w)
    end.

Definition set_Config (cfg : v1.Config) (cf : v1.ConfigFile) : v1.ConfigFile :=
  v1.mkConfigFile (v1.Created cf) (v1.Author cf) (v1.History_ cf)
    (v1.DiffIDs cf) cfg.

Definition set_Env (env : list string) (cf : v1.ConfigFile) : v1.ConfigFile :=
  let c := v1.Config_ cf in
  set_Config
    (v1.mkConfig env (v1.Cmd c) (v1.Entrypoint c) (v1.WorkingDir c) (v1.User c))
    cf.

Definition set_Cmd (cmd : list string) (cf : v1.ConfigFile) : v1.ConfigFile :=
  let c := v1.Config_ cf in
  set_Config
    (v1.mkConfig (v1.Env c) cmd (v1.Entrypoint c) (v1.WorkingDir c) (v1.User c))
    cf.

Definition set_Created (t : Z) (cf : v1.ConfigFile) : v1.ConfigFile :=
  v1.mkConfigFile t (v1.Author cf) (v1.History_ cf) (v1.DiffIDs cf)
    (v1.Config_ cf).

(** The methods of [v1.Image]. *)

(** [image.ConfigFile()] *)
Definition Image_ConfigFile (image : v1.Image) : M v1.ptr :=
  match image with
  | v1.RemoteImage _ (OK cf) _ => alloc cf
  | v1.RemoteImage _ (Err e) _ => fail e
  | v1.MutateImage _ p _ => ret p
  end.

(** [image.Manifest()] *)
Definition Image_Manifest (image : v1.Image) : M v1.Manifest :=
  match image with
  | v1.RemoteImage m _ _ => lift m
  | v1.MutateImage m _ _ => ret m
  end.

(** [image.Layers()] *)
Definition Image_Layers (image : v1.Image) : list v1.Layer :=
  match image with
  | v1.RemoteImage _ _ layers | v1.MutateImage _ _ layers => layers
  end.

(** ** Package [time] *)
Module time.

(** [time.Now()] *)
Definition Now : M Z := fun w => (OK (clock w), w).

End time.

Local Open Scope M_scope.

(** ** Package [mutate] of go-containerregistry *)
Module mutate.

(** [mutate.Config(base, cfg)]: assigns [cfg] to the field [Config] of the
    config file that [base.ConfigFile()] returns, and makes an image
    holding that config file over the manifest and layers of [base]. *)
Definition Config (base : v1.Image) (cfg : v1.Config) : M v1.Image :=
  cf ←$ Image_ConfigFile base;
  update cf (set_Config cfg) >>$
  m ←$ Image_Manifest base;
  ret (v1.MutateImage m cf (Image_Layers base)).

(** [mutate.CreatedAt(base, created)]: the image holds a copy of the config
    file of [base] with the field [Created] set. *)
Definition CreatedAt (base : v1.Image) (created : Z) : M v1.Image :=
  cf ←$ Image_ConfigFile base;
  v ←$ load cf;
  cfg ←$ alloc (set_Created created v);
  m ←$ Image_Manifest base;
  ret (v1.MutateImage m cfg (Image_Layers base)).

(** [mutate.AppendLayers(base, layer)]: the image holds copies of the
    manifest and config file of [base], each with the new layer added at
    the end: its digest in the manifest, its diff-id and an empty history
    entry in the config file. *)
Definition AppendLayers (base : v1.Image) (layer : v1.Layer) : M v1.Image :=
  m ←$ Image_Manifest base;
  cf ←$ Image_ConfigFile base;
  v ←$ load cf;
  cfg ←$ alloc (v1.mkConfigFile (v1.Created v) (v1.Author v)
                 (v1.History_ v ++ [v1.mkHistory EmptyString false])
                 (v1.DiffIDs v ++ [v1.DiffID layer])
                 (v1.Config_ v));
  ret (v1.MutateImage (v1.mkManifest (v1.Layers m ++ [v1.Digest layer]))
         cfg (Image_Layers base ++ [layer])).

End mutate.

(** ** Package [tarball] of go-containerregistry *)
Module tarball.

(** [tarball.LayerFromOpener(opener)]: opens the stream to compute the
    digests of the layer. *)
Definition LayerFromOpener (opener : unit → result (list tar.entry))
  : result v1.Layer :=
  (stream ←? opener tt; OK (v1.TarballLayer stream))%result.

End tarball.

(** ** The image functions of [main.go] *)

(** [applyConfig(image, env, cmd)] *)
Definition applyConfig (image : v1.Image) (env : list string) (cmd : string)
  : M v1.Image :=
  imageConfig ←$ wrapM "creating config file" (Image_ConfigFile image);
  (* imageConfig.Config.Env = env *)
  update imageConfig (set_Env env) >>$
  (* imageConfig.Config.Cmd = []string{cmd} *)
  update imageConfig (set_Cmd [cmd]) >>$
  cf ←$ load imageConfig;
  newImage ←$ wrapM "applying new config" (mutate.Config image (v1.Config_ cf));
  now ←$ time.Now;
  newImage ←$ wrapM "setting created-at timestamp"
               (mutate.CreatedAt newImage now);
  ret newImage.

(** [addNewLayerFromFiles(image, files)] *)
Definition addNewLayerFromFiles (image : v1.Image) (paths : list string)
  : M v1.Image :=
  (* bb := bytes.Buffer{} *)
  bb ←$ wrapM "creating tar archive"
         (fun w => (createTarFile (files w) paths [], w));
  let opener := fun _ : unit => OK bb in
  l ←$ wrapM "creating layer" (lift (tarball.LayerFromOpener opener));
  image ←$ wrapM "appending Layer" (mutate.AppendLayers image l);
  ret image.

(** [buildNewImage(files, env, cmd, baseImage)] *)
Definition buildNewImage (paths env : list string) (cmd : string)
  (baseImage : v1.Image) : M v1.Image :=
  image ←$ wrapM "applying config" (applyConfig baseImage env cmd);
  image ←$ wrapM "adding layer" (addNewLayerFromFiles image paths);
  ret image.

(** ** Observing an image *)

(** The config file that [image.ConfigFile()] yields in the world [w],
    read without changing the world. *)
Definition config_of (image : v1.Image) (w : World) : result v1.ConfigFile :=
  match image with
  | v1.RemoteImage _ config _ => config
  | v1.MutateImage _ p _ =>
      match heap w !! p with
      | Some cf => OK cf
      | None => Err nilDeref
      end
  end.

(** What a run leaves of a config object [a] that existed before it: [b] is
    [a] up to the environment and the command. *)
Definition same_but_env_cmd (a b : v1.ConfigFile) : Prop :=
  v1.Created b = v1.Created a ∧ v1.Author b = v1.Author a ∧
  v1.History_ b = v1.History_ a ∧ v1.DiffIDs b = v1.DiffIDs a ∧
  v1.Entrypoint (v1.Config_ b) = v1.Entrypoint (v1.Config_ a) ∧
  v1.WorkingDir (v1.Config_ b) = v1.WorkingDir (v1.Config_ a) ∧
  v1.User (v1.Config_ b) = v1.User (v1.Config_ a).

(** [image] is an image that hands out the config object at [p]. *)
Definition holds (image : v1.Image) (p : v1.ptr) : Prop :=
  match image with
  | v1.MutateImage _ q _ => q = p
  | v1.RemoteImage _ _ _ => False
  end.

(** The config file a successful [buildNewImage] gives to its result. *)
Definition built_config (now : Z) (env : list string) (cmd : string)
  (bb : list tar.entry) (cf0 : v1.ConfigFile) : v1.ConfigFile :=
  v1.mkConfigFile now (v1.Author cf0)
    (v1.History_ cf0 ++ [v1.mkHistory EmptyString false])
    (v1.DiffIDs cf0 ++ [v1.SHA256 false bb])
    (v1.mkConfig env [cmd] (v1.Entrypoint (v1.Config_ cf0))
       (v1.WorkingDir (v1.Config_ cf0)) (v1.User (v1.Config_ cf0))).

(** The config file that [mutate.AppendLayers] makes from [cf]. *)
Definition appended (bb : list tar.entry) (cf : v1.ConfigFile)
  : v1.ConfigFile :=
  v1.mkConfigFile (v1.Created cf) (v1.Author cf)
    (v1.History_ cf ++ [v1.mkHistory EmptyString false])
    (v1.DiffIDs cf ++ [v1.DiffID (v1.TarballLayer bb)]) (v1.Config_ cf).

(** ** Concrete images for the examples *)

Definition example_config : v1.ConfigFile :=
  v1.mkConfigFile 100 "base" [v1.mkHistory "ADD rootfs" false]
    [v1.Hex "diff-1"]
    (v1.mkConfig ["A=1"] ["/bin/sh"] ["/entry"] "/srv" "nobody").

Definition example_layers : list v1.Layer :=
  [v1.RemoteLayer (v1.Hex "layer-1") (v1.Hex "diff-1")].

(** A fetched base image with one layer, environment [A=1] and command
    [/bin/sh]. *)
Definition example_remote : v1.Image :=
  v1.RemoteImage (OK (v1.mkManifest [v1.Hex "layer-1"])) (OK example_config)
    example_layers.

(** The same image as package [mutate] represents it: its config file is
    the object at address 0. *)
Definition example_mutated : v1.Image :=
  v1.MutateImage (v1.mkManifest [v1.Hex "layer-1"]) 0%nat example_layers.

(** A file system with the single regular file [app]. *)
Definition example_files : os.FS :=
  fun path =>
    if String.eqb path "app"
    then OK (os.File 493 5 [Byte.x7f; Byte.x45] None)
    else Err os.ErrNotExist.

Definition example_world : World := mkWorld [example_config] 777 example_files.

(** The image and the world that a run leaves. *)
Definition image_of (out : result v1.Image * World) : v1.Image :=
  match fst out with
  | OK img => img
  | Err _ => v1.RemoteImage (Err nilDeref) (Err nilDeref) []
  end.

Definition is_remote (image : v1.Image) : bool :=
  match image with
  | v1.RemoteImage _ _ _ => true
  | v1.MutateImage _ _ _ => false
  end.

(** A base image whose config blob cannot be parsed. *)
Definition example_broken : v1.Image :=
  v1.RemoteImage (OK (v1.mkManifest [])) (Err (errors.New "unexpected EOF")) [].

(** The claim that a run leaves the config of every base image as it
    was. *)
Definition base_config_never_changes : Prop :=
  ∀ paths env cmd base w r w' cf,
    buildNewImage paths env cmd base w = (r, w') →
    config_of base w = OK cf →
    config_of base w' = OK cf.

(** ** Paths made of plain names *)

(** [s] contains the separator. *)
Fixpoint has_sep (s : string) : bool :=
  match s with
  | EmptyString => false
  | String c s' => Ascii.eqb c "/" || has_sep s'
  end.

(** A plain name: what a directory listing can hold, a non-empty name
    without separator other than "." and "..". *)
Definition plain (c : string) : bool :=
  negb (has_sep c) && negb (String.eqb c EmptyString) && negb (String.eqb c ".")
  && negb (String.eqb c "..").

(** The path that continues with the names [rel]: "/r1/r2/...". *)
Fixpoint below (rel : list string) : string :=
  match rel with
  | [] => EmptyString
  | c :: rel' => "/" +:+ c +:+ below rel'
  end.

(** A path written as plain names: "c/c1/.../cn", or "/c/c1/.../cn" when
    [rooted]. *)
Definition mk_path (rooted : bool) (c : string) (cs : list string) : string :=
  (if rooted then "/" else EmptyString) +:+ c +:+ below cs.

(** [s] is such a path. *)
Definition plain_path (s : string) : bool :=
  match strings.Split s with
  | EmptyString :: c :: cs => forallb plain (c :: cs)
  | c :: cs => forallb plain (c :: cs)
  | [] => false
  end.

(** The first element of an archive path: where the entry lands in the
    image root. *)
Definition first_element (s : string) : string :=
  hd EmptyString (strings.Split s).

(** All the names in the listings of a tree satisfy [Q]. *)
Fixpoint names_ok (Q : string → bool) (n : os.node) : bool :=
  match n with
  | os.Dir _ _ (OK listing) =>
      forallb
        (fun kr : string * result os.node =>
           Q (fst kr) &&
           match snd kr with
           | OK child => names_ok Q child
           | Err _ => true
           end)
        listing
  | _ => true
  end.

(** ** What the archiver writes for one node *)

(** The bytes that follow the header: the content of a regular file,
    nothing for any other node. *)
Definition content_of (n : os.node) : bytes :=
  match n with
  | os.File _ _ content _ => content
  | _ => []
  end.

(** [os.Open] succeeds on the node, when it is a regular file. *)
Definition readable (n : os.node) : bool :=
  match n with
  | os.File _ _ _ (Some _) => false
  | _ => true
  end.

(** The name [tarwalk] gives to the header of what it finds at [path]. *)
Definition renamed (source baseDir path : string) (h : tar.Header)
  : tar.Header :=
  if negb (String.eqb baseDir EmptyString) then
    tar.set_Name h
      (filepath.ToSlash
         (filepath.Join baseDir (strings.TrimPrefix path source)))
  else h.

(** The archive member for the node [n] found at [path]. *)
Definition entry_of (source baseDir path : string) (n : os.node)
  : result tar.entry :=
  (h ←? tar.FileInfoHeader (os.info path n) (os.basename path);
   OK (tar.mkEntry (renamed source baseDir path h) (content_of n)))%result.

(** The base directory that [tarwalk] computes from [os.Stat]. *)
Definition baseDir_of (fs : os.FS) (source : string) : string :=
  match os.Stat fs source with
  | OK info => if os.IsDir info then filepath.Base source else EmptyString
  | Err _ => EmptyString
  end.

(** A node that is neither a regular file nor a directory. *)
Definition is_special (n : os.node) : bool :=
  match n with
  | os.Link _ _ _ | os.Special _ _ _ => true
  | _ => false
  end.

(** The sources are paths of plain names, and so are the names in the
    directories below them. *)
Definition sources_ok (fs : os.FS) (paths : list string) : bool :=
  forallb
    (fun p => plain_path p &&
              match fs p with
              | OK n => names_ok plain n
              | Err _ => true
              end)
    paths.

Definition entry_name (e : tar.entry) : string := tar.Name (tar.hdr e).

(** The nodes for which [tar.FileInfoHeader] makes no header. *)
Definition refused (n : os.node) : bool :=
  match n with
  | os.Special os.Socket _ _ | os.Special os.Irregular _ _ => true
  | _ => false
  end.

(** The claim that a special file among the input paths is skipped: the
    archive is the one made without that path. *)
Definition special_files_skipped : Prop :=
  ∀ fs before source after n,
    fs source = OK n → is_special n = true →
    createTarFile fs (before ++ source :: after) []
    = createTarFile fs (before ++ after) [].

(** A file system with a character device, a socket, a symbolic link to a
    regular file and a directory that holds a symbolic link. *)
Definition special_fs : os.FS :=
  fun path =>
    if String.eqb path "null" then OK (os.Special os.CharDevice 438 1)
    else if String.eqb path "sock" then OK (os.Special os.Socket 493 2)
    else if String.eqb path "link" then
      OK (os.Link 511 3 (OK (os.File 420 4 [Byte.x68; Byte.x69] None)))
    else if String.eqb path "dir" then
      OK (os.Dir 493 5 (OK [("l", OK (os.Link 511 6 (Err os.ErrNotExist)))]))
    else Err os.ErrNotExist.

(** What the entries [seg] that come from the source [p] look like: all of
    them land under the base name of [p], and a source that is not a
    directory gives one entry with that name. *)
Definition from_source (fs : os.FS) (p : string) (seg : list tar.entry)
  : Prop :=
  Forall (fun e => first_element (entry_name e) = filepath.Base p) seg ∧
  (∀ info, os.Stat fs p = OK info → os.IsDir info = false →
     ∃ e, seg = [e] ∧ entry_name e = filepath.Base p).

(** The claim that the entries of distinct sources never have the same
    name. *)
Definition entries_never_collide : Prop :=
  ∀ fs paths out,
    NoDup paths → createTarFile fs paths [] = OK out →
    NoDup (map entry_name out).

(** Two directories that each hold a regular file [x], and a directory
    [foo] in each of them holding [bar.txt]. *)
Definition twin_fs : os.FS :=
  fun path =>
    if String.eqb path "a/x" then OK (os.File 420 1 [Byte.x61] None)
    else if String.eqb path "b/x" then OK (os.File 420 2 [Byte.x62] None)
    else if String.eqb path "a/foo" then
      OK (os.Dir 493 3 (OK [("bar.txt", OK (os.File 420 4 [Byte.x61] None))]))
    else if String.eqb path "b/foo" then
      OK (os.Dir 493 5 (OK [("bar.txt", OK (os.File 420 6 [Byte.x62] None))]))
    else Err os.ErrNotExist.

(** ** Two views of an unchanged file system *)

(** [P] holds of all the names. *)
Fixpoint all_names (P : string → Prop) (names : list string) : Prop :=
  match names with
  | [] => True
  | name :: names' => P name ∧ all_names P names'
  end.

(** Two trees show the same files: they are equal, but for the order in
    which the system lists the names of a directory.  For two directories
    that is: the same sorted names, and for each name the same outcome of
    [lstat], an error or nodes that again show the same files. *)
Fixpoint same_tree (n n' : os.node) : Prop :=
  match n, n' with
  | os.Dir perm mtime (OK l), os.Dir perm' mtime' (OK l') =>
      perm = perm' ∧ mtime = mtime' ∧
      sort.Strings (map fst l) = sort.Strings (map fst l') ∧
      all_names
        (fun name =>
           filepath.lstat name
             (fun c => filepath.lstat name (fun c' => same_tree c c')
                         (fun _ => False) l')
             (fun e => filepath.lstat name (fun _ => False)
                         (fun e' => e = e') l')
             l)
        (map fst l)
  | _, _ => n = n'
  end.

Definition same_outcome (r r' : result os.node) : Prop :=
  match r, r' with
  | OK n, OK n' => same_tree n n'
  | Err e, Err e' => e = e'
  | _, _ => False
  end.

(** What [lstat] finds under a name. *)
Fixpoint find_name (name : string) (l : list (string * result os.node))
  : option (result os.node) :=
  match l with
  | [] => None
  | (k, r) :: l' => if String.eqb k name then Some r else find_name name l'
  end.

(** A directory [site] with three entries, as two runs may see it listed. *)
Definition site_listing : list (string * result os.node) :=
  [("index.html", OK (os.File 420 10 [Byte.x3c; Byte.x68] None));
   ("css", OK (os.Dir 493 11
                 (OK [("b.css", OK (os.File 420 12 [Byte.x62] None));
                      ("a.css", OK (os.File 420 13 [Byte.x61] None))])));
   ("app", OK (os.File 493 14 [Byte.x7f] None))].

Definition site_listing' : list (string * result os.node) :=
  [("app", OK (os.File 493 14 [Byte.x7f] None));
   ("css", OK (os.Dir 493 11
                 (OK [("a.css", OK (os.File 420 13 [Byte.x61] None));
                      ("b.css", OK (os.File 420 12 [Byte.x62] None))])));
   ("index.html", OK (os.File 420 10 [Byte.x3c; Byte.x68] None))].

Definition site_fs : os.FS :=
  fun path =>
    if String.eqb path "site" then OK (os.Dir 493 9 (OK site_listing))
    else Err os.ErrNotExist.

Definition site_fs' : os.FS :=
  fun path =>
    if String.eqb path "site" then OK (os.Dir 493 9 (OK site_listing'))
    else Err os.ErrNotExist.

(** The directory [foo] holding [bar.txt], named in three ways, and the
    file [baz.txt]. *)
Definition prefix_fs : os.FS :=
  fun path =>
    if String.eqb path "foo" || String.eqb path "./foo"
       || String.eqb path "/srv/foo"
    then OK (os.Dir 493 1 (OK [("bar.txt", OK (os.File 420 2 [Byte.x62] None))]))
    else if String.eqb path "baz.txt" || String.eqb path "./baz.txt"
    then OK (os.File 420 3 [Byte.x7a] None)
    else Err os.ErrNotExist.

(** The names of the entries of an archive, in order; none when the
    archiver failed. *)
Definition names_of (r : result (list tar.entry)) : list string :=
  match r with
  | OK out => map entry_name out
  | Err _ => []
  end.

(** ** The members of the archive, without the writer *)

(** The member for the node [n] found at [path], or the error that stops
    the archiver there: that of [os.Open] for a regular file that cannot be
    read, that of [tar.FileInfoHeader] otherwise. *)
Definition member_of (source baseDir path : string) (n : os.node)
  : result tar.entry :=
  match n with
  | os.File _ _ _ (Some e) => Err e
  | _ => entry_of source baseDir path n
  end.

(** The lists that [f] gives for the elements of [l], one after the other,
    or the first error. *)
Fixpoint gather {A B : Type} (f : A → result (list B)) (l : list A)
  : result (list B) :=
  match l with
  | [] => OK []
  | a :: l' => (x ←? f a; xs ←? gather f l'; OK (x ++ xs))%result
  end.

(** The members that a walk from the node [n] at [path] writes, in the
    order of writing. *)
Fixpoint members (source baseDir path : string) (n : os.node)
  : result (list tar.entry) :=
  match n with
  | os.Dir _ _ (Err e) => Err e
  | os.Dir _ _ (OK listing) =>
      (e ←? entry_of source baseDir path n;
       below ←? gather
                  (fun name =>
                     filepath.lstat name
                       (fun child =>
                          members source baseDir (filepath.Join path name)
                            child)
                       (fun e => Err e)
                       listing)
                  (sort.Strings (map fst listing));
       OK (e :: below))%result
  | _ => (e ←? member_of source baseDir path n; OK [e])%result
  end.

(** A member is well formed: its header announces the bytes that follow,
    and only a regular file has bytes. *)
Definition well_formed (e : tar.entry) : Prop :=
  tar.Size (tar.hdr e) = Z.of_nat (length (tar.body e)) ∧
  (tar.Typeflag_ (tar.hdr e) ≠ tar.TypeReg → tar.body e = []).

(** The trees that the archiver can write: every regular file can be read,
    every directory can be listed and [Lstat] succeeds on each of its
    names, and there is no socket or file of unknown type. *)
Fixpoint archivable (n : os.node) : bool :=
  match n with
  | os.File _ _ _ None => true
  | os.File _ _ _ (Some _) => false
  | os.Dir _ _ (Err _) => false
  | os.Dir _ _ (OK listing) =>
      forallb
        (fun name =>
           filepath.lstat name archivable (fun _ => false) listing)
        (map fst listing)
  | os.Link _ _ _ => true
  | os.Special k _ _ => negb (refused n)
  end.

(** A source that the archiver can write: [os.Stat] succeeds on it and the
    tree it names can be written. *)
Definition source_archivable (fs : os.FS) (p : string) : bool :=
  match os.Stat fs p, fs p with
  | OK _, OK n => archivable n
  | _, _ => false
  end.

(** A listing of readable regular files with plain names. *)
Definition flat_files (l : list (string * result os.node)) : bool :=
  forallb
    (fun kr : string * result os.node =>
       plain (fst kr) &&
       match snd kr with
       | OK (os.File _ _ _ None) => true
       | _ => false
       end)
    l.

(** Names in increasing byte-wise order, neighbours compared with [<=]. *)
Fixpoint increasing (l : list string) : bool :=
  match l with
  | a :: (b :: _) as t => String.leb a b && increasing t
  | _ => true
  end.

(** The members that [tarwalk] writes for the source [p]. *)
Definition source_members (fs : os.FS) (p : string)
  : result (list tar.entry) :=
  (info ←? os.Stat fs p;
   n ←? fs p;
   members p (baseDir_of fs p) p n)%result.

(** A directory of three files listed out of order, under two names. *)
Definition flat_fs : os.FS :=
  fun path =>
    if String.eqb path "/srv/www" || String.eqb path "www"
    then OK (os.Dir 493 1
               (OK [("c.js", OK (os.File 420 2 [Byte.x63] None));
                    ("a.html", OK (os.File 420 3 [Byte.x61] None));
                    ("b.css", OK (os.File 420 4 [Byte.x62] None))]))
    else if String.eqb path "secret"
    then OK (os.File 384 5 [Byte.x73]
               (Some (errors.New "open secret: permission denied")))
    else if String.eqb path "app"
    then OK (os.File 493 6 [Byte.x7f; Byte.x45] None)
    else Err os.ErrNotExist.

(** ** Fetching and pushing: [getImage], [pushImage], [run], [main] *)

(** Package [name] of go-containerregistry. *)
Module name.

(** [name.Repository]: a registry and a repository on it. *)
Record Repository : Type := mkRepository {
  Registry : string;
  RepositoryStr : string
}.

(** [name.Reference]: a tag or a digest in a repository; [Context] is the
    method [Context()]. *)
Record Reference : Type := mkReference {
  Context : Repository;
  Identifier : string
}.

End name.

(** Package [remote] of go-containerregistry. *)
Module remote.

(** [remote.WriteOptions] *)
Record WriteOptions : Type := mkWriteOptions {
  MountPaths : list name.Repository
}.

End remote.

(** What the program asks of the registry and of the keychain; these are
    the calls into go-containerregistry that reach outside the process.
    [api_Write] returns the error of [remote.Write], if any. *)
Record Collaborators : Type := mkCollaborators {
  (* name.ParseReference(url, name.WeakValidation) *)
  api_ParseReference : string → result name.Reference;
  (* authn.DefaultKeychain.Resolve(registry) *)
  api_Resolve : string → result string;
  (* remote.Image(ref, auth, http.DefaultTransport) *)
  api_Image : name.Reference → string → result v1.Image;
  (* remote.Write(ref, image, auth, http.DefaultTransport, wo) *)
  api_Write : name.Reference → v1.Image → string → remote.WriteOptions →
              World → option error
}.

(** One call of [remote.Write]. *)
Record WriteCall : Type := mkWriteCall {
  call_ref : name.Reference;
  call_image : v1.Image;
  call_auth : string;
  call_options : remote.WriteOptions
}.

(** The state of the process: the world of the image functions, the lines
    printed on the standard output and the calls of [remote.Write] made so
    far. *)
Record Proc : Type := mkProc {
  world : World;
  stdout : list string;
  written : list WriteCall
}.

Definition P (A : Type) : Type := Proc → result A * Proc.

Definition pret {A} (a : A) : P A := fun pr => (OK a, pr).
Definition pbind {A B} (m : P A) (k : A → P B) : P B :=
  fun pr =>
    match m pr with
    | (OK a, pr') => k a pr'
    | (Err e, pr') => (Err e, pr')
    end.

Declare Scope P_scope.
Delimit Scope P_scope with P.
Notation "x ←! m ; k" := (pbind m (fun x => k))
  (at level 100, m at next level, right associativity) : P_scope.
Notation "m >>! k" := (pbind m (fun _ => k))
  (at level 100, right associativity) : P_scope.

(** A computation on the world, run in the process. *)
Definition liftM {A} (m : M A) : P A :=
  fun pr =>
    let (r, w') := m (world pr) in
    (r, mkProc w' (stdout pr) (written pr)).

Definition liftR {A} (r : result A) : P A := fun pr => (r, pr).

(** [fmt.Println(line)] *)
Definition Println (line : string) : P unit :=
  fun pr => (OK tt, mkProc (world pr) (stdout pr ++ [line]) (written pr)).

(** [errors.Wrapf(err, format, arg)] for a format with one [%s]: the
    message is the format with [arg] in place of [%s]. *)
Definition wrapf {A} (before arg after : string) (r : result A) : result A :=
  wrap (before +:+ arg +:+ after) r.

(** [parseImageURL(url)] *)
Definition parseImageURL (api : Collaborators) (url : string)
  : result name.Reference :=
  (ref ←? wrapf "parsing url (" url ")" (api_ParseReference api url);
   OK ref)%result.

(** [getImage(sourceURL)] *)
Definition getImage (api : Collaborators) (sourceURL : string)
  : result (v1.Image * name.Repository) :=
  (ref ←? wrap "parsing source URL" (parseImageURL api sourceURL);
   auth ←? wrap "authenticating"
             (api_Resolve api (name.Registry (name.Context ref)));
   img ←? wrap "fetching" (api_Image api ref auth);
   OK (img, name.Context ref))%result.

(** [remote.Write(destRef, image, pushAuth, http.DefaultTransport, wo)]:
    the call is recorded, its error returned. *)
Definition remote_Write (api : Collaborators) (destRef : name.Reference)
  (image : v1.Image) (auth : string) (wo : remote.WriteOptions) : P unit :=
  fun pr =>
    (match api_Write api destRef image auth wo (world pr) with
     | None => OK tt
     | Some e => Err e
     end,
     mkProc (world pr) (stdout pr)
       (written pr ++ [mkWriteCall destRef image auth wo])).

Local Open Scope P_scope.

(** [pushImage(image, repositories, destURL)] *)
Definition pushImage (api : Collaborators) (image : v1.Image)
  (repositories : list name.Repository) (destURL : string) : P unit :=
  destRef ←! liftR (wrapf "parsing destination URL (" destURL ")"
                      (api_ParseReference api destURL));
  pushAuth ←! liftR (wrapf "authenticating target (" destURL ")"
                       (api_Resolve api (name.Registry (name.Context destRef))));
  (* wo := remote.WriteOptions{}; wo.MountPaths = repositories *)
  let wo := remote.mkWriteOptions repositories in
  remote_Write api destRef image pushAuth wo.

(** The command line, parsed: [params]. *)
Record params : Type := mkParams {
  Target : string;
  BaseImage : string;
  Files : list string;
  Env : list string;
  Cmd : string
}.

(** [run()], on the parsed command line [p]. *)
Definition run (api : Collaborators) (p : params) : P unit :=
  Println "Checking base image..." >>!
  fetched ←! liftR (getImage api (BaseImage p));
  let (baseImage, repository) := (fetched : v1.Image * name.Repository) in
  Println "Building new image..." >>!
  finalImage ←! liftM (buildNewImage (Files p) (Env p) (Cmd p) baseImage);
  Println "Pushing..." >>!
  pushImage api finalImage [repository] (Target p) >>!
  Println "Done." >>!
  pret tt.

(** [main()]: the exit status and what is printed on the standard error. *)
Definition main (api : Collaborators) (p : params) (pr : Proc)
  : (Z * string) * Proc :=
  match run api p pr with
  | (Err err, pr') => ((1, "Error: " +:+ errors.Error err), pr')
  | (OK _, pr') => ((0, EmptyString), pr')
  end.

(** The lines that [run] prints, in order. *)
Definition progress : list string :=
  ["Checking base image..."; "Building new image..."; "Pushing..."; "Done."].

(** A registry that knows the image [gcr.io/base/alpine] and accepts every
    write, and a key chain that knows the registry [gcr.io]. *)
Definition example_api : Collaborators :=
  mkCollaborators
    (fun url =>
       if String.eqb url "gcr.io/base/alpine"
       then OK (name.mkReference (name.mkRepository "gcr.io" "base/alpine")
                  "latest")
       else if String.eqb url "gcr.io/team/app"
       then OK (name.mkReference (name.mkRepository "gcr.io" "team/app")
                  "latest")
       else Err (errors.New "could not parse reference"))
    (fun registry =>
       if String.eqb registry "gcr.io" then OK "token"
       else Err (errors.New "no credentials"))
    (fun ref auth =>
       if String.eqb (name.RepositoryStr (name.Context ref)) "base/alpine"
       then OK example_remote
       else Err (errors.New "MANIFEST_UNKNOWN"))
    (fun ref image auth wo w => None).

Definition example_params : params :=
  mkParams "gcr.io/team/app" "gcr.io/base/alpine" ["app"] ["PORT=8080"]
    "/app --serve".

Definition example_proc : Proc := mkProc example_world [] [].

(** * Properties of the image functions *)

Lemma lookup_alloc {A} (h : list A) (x : A) : (h ++ [x]) !! length h = Some x.
Proof. by rewrite list_lookup_middle. Qed.

Lemma insert_alloc {A} (h : list A) (x y : A) :
  <[length h := y]> (h ++ [x]) = h ++ [y].
Proof. rewrite insert_app_r_alt; [|lia]. by rewrite Nat.sub_diag. Qed.

Lemma lookup_update {A} (h : list A) (p : nat) (x y : A) :
  h !! p = Some x → <[p := y]> h !! p = Some y.
Proof. intros H. apply list_lookup_insert_eq. by eapply lookup_lt_Some. Qed.

Lemma lookup_kept {A} (h ext : list A) (p : nat) (x : A) :
  h !! p = Some x → (h ++ ext) !! p = Some x.
Proof. apply lookup_app_l_Some. Qed.

Ltac heap_simpl :=
  repeat (progress (cbn in *;
    rewrite ?insert_alloc, ?lookup_alloc, ?list_insert_insert_eq)).

Ltac unfold_M :=
  unfold mutate.Config, mutate.CreatedAt, mutate.AppendLayers,
    tarball.LayerFromOpener, bind, wrapM, update, load, time.Now,
    ret, fail, lift, alloc.

(** [applyConfig], when it succeeds: the result holds a new config object,
    the config of [image] with the three fields replaced. *)
Lemma applyConfig_ok image env cmd w img w' :
  applyConfig image env cmd w = (OK img, w') →
  ∃ cf0 m p,
    config_of image w = OK cf0 ∧
    img = v1.MutateImage m p (Image_Layers image) ∧
    Image_Manifest image w = (OK m, w) ∧
    (length (heap w) ≤ p)%nat ∧
    heap w' !! p
      = Some (set_Created (clock w) (set_Cmd [cmd] (set_Env env cf0))) ∧
    clock w' = clock w ∧ files w' = files w.
Proof.
  unfold applyConfig; unfold_M.
  destruct image as [m [cf|e] ls | m p ls]; heap_simpl.
  - destruct m as [m|e]; heap_simpl; [|discriminate].
    intros [= <- <-]. exists cf, m. eexists.
    heap_simpl. repeat split; try reflexivity.
    rewrite !length_app; lia.
  - discriminate.
  - destruct (heap w !! p) as [cf0|] eqn:Hp; heap_simpl; [|discriminate].
    do 4 (rewrite (lookup_update _ _ _ _ Hp); heap_simpl).
    intros [= <- <-]. exists cf0, m. eexists.
    heap_simpl. repeat split; try reflexivity.
    rewrite length_insert; lia.
Qed.

(** [applyConfig], whatever its outcome: the only object it can change is
    the one [image] hands out, and of it only the environment and the
    command. *)
Lemma applyConfig_frame image env cmd w r w' :
  applyConfig image env cmd w = (r, w') →
  ∀ q cf, heap w !! q = Some cf →
    ∃ cf', heap w' !! q = Some cf' ∧ same_but_env_cmd cf cf' ∧
           (cf' = cf ∨ holds image q).
Proof.
  unfold applyConfig; unfold_M.
  destruct image as [m [cf|e] ls | m p ls]; heap_simpl.
  - destruct m as [m|e]; heap_simpl; intros [= <- <-] q c Hq; exists c;
      heap_simpl; (split; [by repeat apply lookup_kept|]);
      (split; [by repeat split|by left]).
  - intros [= <- <-] q c Hq. exists c. by repeat split; try left.
  - destruct (heap w !! p) as [cf0|] eqn:Hp; heap_simpl.
    + do 4 (rewrite (lookup_update _ _ _ _ Hp); heap_simpl).
      intros [= <- <-] q c Hq. heap_simpl.
      destruct (decide (q = p)) as [->|Hne].
      * eexists. split; [apply lookup_kept, (lookup_update _ _ _ _ Hp)|].
        rewrite Hp in Hq. injection Hq as <-. split; [by repeat split|by right].
      * exists c. split; [apply lookup_kept; by rewrite list_lookup_insert_ne|].
        split; [by repeat split|by left].
    + intros [= <- <-] q c Hq. exists c. by repeat split; try left.
Qed.

(** [addNewLayerFromFiles], when it succeeds. *)
Lemma addNewLayerFromFiles_ok image paths w img w' :
  addNewLayerFromFiles image paths w = (OK img, w') →
  ∃ bb cf m p,
    createTarFile (files w) paths [] = OK bb ∧
    config_of image w = OK cf ∧
    Image_Manifest image w = (OK m, w) ∧
    img = v1.MutateImage
            (v1.mkManifest (v1.Layers m ++ [v1.Digest (v1.TarballLayer bb)]))
            p (Image_Layers image ++ [v1.TarballLayer bb]) ∧
    (length (heap w) ≤ p)%nat ∧
    heap w' !! p = Some (appended bb cf) ∧
    clock w' = clock w ∧ files w' = files w.
Proof.
  unfold addNewLayerFromFiles; unfold_M.
  destruct (createTarFile (files w) paths []) as [bb|e]; heap_simpl;
    [|discriminate].
  destruct image as [m [cf|e] ls | m p ls]; heap_simpl.
  - destruct m as [m|e]; heap_simpl; [|discriminate].
    intros [= <- <-]. exists bb, cf, m. eexists.
    heap_simpl. repeat split; try reflexivity.
    rewrite !length_app; lia.
  - destruct m as [m|e']; heap_simpl; discriminate.
  - destruct (heap w !! p) as [cf0|] eqn:Hp; heap_simpl; [|discriminate].
    intros [= <- <-]. exists bb, cf0, m. eexists.
    heap_simpl. repeat split; try reflexivity.
Qed.

(** [addNewLayerFromFiles], whatever its outcome, changes no object. *)
Lemma addNewLayerFromFiles_frame image paths w r w' :
  addNewLayerFromFiles image paths w = (r, w') →
  ∀ q cf, heap w !! q = Some cf → heap w' !! q = Some cf.
Proof.
  unfold addNewLayerFromFiles; unfold_M.
  destruct (createTarFile (files w) paths []) as [bb|e]; heap_simpl.
  - destruct image as [m [cf|e] ls | m p ls]; heap_simpl.
    + destruct m as [m|e]; heap_simpl; intros [= <- <-] q c Hq;
        heap_simpl; by repeat apply lookup_kept.
    + destruct m as [m|e']; heap_simpl; by intros [= <- <-] q c Hq.
    + destruct (heap w !! p) as [cf0|] eqn:Hp; heap_simpl;
        intros [= <- <-] q c Hq; heap_simpl; by repeat apply lookup_kept.
  - by intros [= <- <-] q c Hq.
Qed.

Lemma bind_ok {A B} (m : M A) (k : A → M B) w b w' :
  bind m k w = (OK b, w') →
  ∃ a w1, m w = (OK a, w1) ∧ k a w1 = (OK b, w').
Proof.
  unfold bind. destruct (m w) as [[a|e] w1]; [eauto|discriminate].
Qed.

Lemma wrapM_ok {A} msg (m : M A) w a w' :
  wrapM msg m w = (OK a, w') → m w = (OK a, w').
Proof.
  unfold wrapM. destruct (m w) as [[a'|e] w1]; cbn; congruence.
Qed.

(** [buildNewImage], when it succeeds: [applyConfig] ran first, then
    [addNewLayerFromFiles] on its result, and the final image holds the
    config of the base image with the three fields replaced and the new
    layer recorded. *)
Lemma buildNewImage_ok paths env cmd base w img w' :
  buildNewImage paths env cmd base w = (OK img, w') →
  ∃ img1 w1 bb cf0 m p,
    applyConfig base env cmd w = (OK img1, w1) ∧
    addNewLayerFromFiles img1 paths w1 = (OK img, w') ∧
    createTarFile (files w) paths [] = OK bb ∧
    config_of base w = OK cf0 ∧
    Image_Manifest base w = (OK m, w) ∧
    img = v1.MutateImage
            (v1.mkManifest (v1.Layers m ++ [v1.Digest (v1.TarballLayer bb)]))
            p (Image_Layers base ++ [v1.TarballLayer bb]) ∧
    (length (heap w) ≤ p)%nat ∧
    config_of img w' = OK (built_config (clock w) env cmd bb cf0).
Proof.
  unfold buildNewImage. intros H.
  apply bind_ok in H as (img1 & w1 & H1 & H).
  apply bind_ok in H as (img2 & w2 & H2 & H).
  apply wrapM_ok in H1, H2. injection H as <- <-.
  exists img1, w1.
  destruct (applyConfig_ok _ _ _ _ _ _ H1)
    as (cf0 & m & p & Hcf0 & -> & Hm & Hp & Hcf1 & Hclock & Hfiles).
  destruct (addNewLayerFromFiles_ok _ _ _ _ _ H2)
    as (bb & cf1 & m' & p' & Htar & Hcf1' & Hm' & -> & Hp' & Hcf2 & _ & _).
  cbn in Hcf1', Hm'. rewrite Hcf1 in Hcf1'. injection Hcf1' as <-.
  injection Hm' as <-. rewrite Hfiles in Htar.
  pose proof (lookup_lt_Some _ _ _ Hcf1) as Hlt.
  exists bb, cf0, m, p'. repeat split; try done; [lia|].
  cbn. by rewrite Hcf2.
Qed.

(** C3: the environment of the image that [applyConfig] returns is exactly
    the override list [env], whatever the environment of the base image. *)
Theorem applyConfig_env_replaced image env cmd w img w' :
  applyConfig image env cmd w = (OK img, w') →
  ∃ cf, config_of img w' = OK cf ∧ v1.Env (v1.Config_ cf) = env.
Proof.
  intros H.
  destruct (applyConfig_ok _ _ _ _ _ _ H)
    as (cf0 & m & p & _ & -> & _ & _ & Hcf & _).
  eexists. cbn. rewrite Hcf. split; reflexivity.
Qed.

(** C3, on the example of the specification: base environment [A=1],
    override [B=2], result exactly [B=2]. *)
Lemma applyConfig_env_replaced_witness :
  let out := applyConfig example_remote ["B=2"] "/app" example_world in
  config_of example_remote example_world = OK example_config ∧
  v1.Env (v1.Config_ example_config) = ["A=1"] ∧
  ∃ cf, config_of (image_of out) (snd out) = OK cf ∧
        v1.Env (v1.Config_ cf) = ["B=2"].
Proof.
  intros out. split; [reflexivity|]. split; [reflexivity|].
  apply (applyConfig_env_replaced example_remote ["B=2"] "/app" example_world).
  reflexivity.
Defined.

(** C4: the command of the image that [applyConfig] returns is the
    one-element array holding [cmd] as it is, and its creation time is the
    time read from the clock during the call. *)
Theorem applyConfig_cmd_created image env cmd w img w' :
  applyConfig image env cmd w = (OK img, w') →
  ∃ cf, config_of img w' = OK cf ∧
        v1.Cmd (v1.Config_ cf) = [cmd] ∧
        v1.Created cf = clock w.
Proof.
  intros H.
  destruct (applyConfig_ok _ _ _ _ _ _ H)
    as (cf0 & m & p & _ & -> & _ & _ & Hcf & _).
  eexists. cbn. rewrite Hcf. repeat split; reflexivity.
Qed.

Lemma applyConfig_cmd_created_witness :
  let out := applyConfig example_remote ["B=2"] "/app --serve" example_world in
  ∃ cf, config_of (image_of out) (snd out) = OK cf ∧
        v1.Cmd (v1.Config_ cf) = ["/app --serve"] ∧
        v1.Created cf = 777.
Proof.
  intros out.
  apply (applyConfig_cmd_created example_remote ["B=2"] "/app --serve"
           example_world).
  reflexivity.
Defined.

(** C5: the layers of the built image are those of the base image, in their
    order, followed by the one new layer; the diff-id of the new layer is
    the last of the diff-ids in the config of the built image; and the
    result is that of [addNewLayerFromFiles] on the result of
    [applyConfig]. *)
Theorem buildNewImage_layer_last paths env cmd base w img w' :
  buildNewImage paths env cmd base w = (OK img, w') →
  ∃ bb cf0 cf img1 w1,
    createTarFile (files w) paths [] = OK bb ∧
    Image_Layers img = Image_Layers base ++ [v1.TarballLayer bb] ∧
    config_of base w = OK cf0 ∧
    config_of img w' = OK cf ∧
    v1.DiffIDs cf = v1.DiffIDs cf0 ++ [v1.DiffID (v1.TarballLayer bb)] ∧
    last (v1.DiffIDs cf) = Some (v1.DiffID (v1.TarballLayer bb)) ∧
    applyConfig base env cmd w = (OK img1, w1) ∧
    addNewLayerFromFiles img1 paths w1 = (OK img, w').
Proof.
  intros H.
  destruct (buildNewImage_ok _ _ _ _ _ _ _ H)
    as (img1 & w1 & bb & cf0 & m & p & H1 & H2 & Htar & Hcf0 & _ & -> & _ & Hcf).
  exists bb, cf0, (built_config (clock w) env cmd bb cf0), img1, w1.
  repeat split; try done. cbn. apply last_snoc.
Qed.

Lemma buildNewImage_layer_last_witness :
  ∃ bb cf0 cf img1 w1,
    createTarFile (files example_world) ["app"] [] = OK bb ∧
    Image_Layers
      (image_of (buildNewImage ["app"] ["PORT=8080"] "/app --serve"
                   example_remote example_world))
      = Image_Layers example_remote ++ [v1.TarballLayer bb] ∧
    config_of example_remote example_world = OK cf0 ∧
    config_of
      (image_of (buildNewImage ["app"] ["PORT=8080"] "/app --serve"
                   example_remote example_world))
      (snd (buildNewImage ["app"] ["PORT=8080"] "/app --serve"
              example_remote example_world)) = OK cf ∧
    v1.DiffIDs cf = v1.DiffIDs cf0 ++ [v1.DiffID (v1.TarballLayer bb)] ∧
    last (v1.DiffIDs cf) = Some (v1.DiffID (v1.TarballLayer bb)) ∧
    applyConfig example_remote ["PORT=8080"] "/app --serve" example_world
      = (OK img1, w1) ∧
    addNewLayerFromFiles img1 ["app"] w1
      = (OK (image_of (buildNewImage ["app"] ["PORT=8080"] "/app --serve"
                         example_remote example_world)),
         snd (buildNewImage ["app"] ["PORT=8080"] "/app --serve"
                example_remote example_world)).
Proof.
  apply (buildNewImage_layer_last ["app"] ["PORT=8080"] "/app --serve"
           example_remote example_world).
  reflexivity.
Defined.

(** C8: an error of [applyConfig] comes out of [buildNewImage] wrapped with
    "applying config", an error of [addNewLayerFromFiles] wrapped with
    "adding layer"; in both cases no image is returned.  In particular a
    base image whose config file cannot be retrieved fails at the first
    stage. *)
Theorem buildNewImage_stage_errors paths env cmd base w :
  (∀ e w1,
     applyConfig base env cmd w = (Err e, w1) →
     buildNewImage paths env cmd base w
       = (Err (errors.Wrap e "applying config"), w1)) ∧
  (∀ img1 w1 e w2,
     applyConfig base env cmd w = (OK img1, w1) →
     addNewLayerFromFiles img1 paths w1 = (Err e, w2) →
     buildNewImage paths env cmd base w
       = (Err (errors.Wrap e "adding layer"), w2)) ∧
  (∀ e,
     config_of base w = Err e →
     is_remote base = true →
     buildNewImage paths env cmd base w
       = (Err (errors.Wrap (errors.Wrap e "creating config file")
                 "applying config"), w)).
Proof.
  unfold buildNewImage, bind, wrapM. repeat split.
  - intros e w1 ->. reflexivity.
  - intros img1 w1 e w2 -> H2. cbv beta iota delta [wrap]. rewrite H2.
    reflexivity.
  - intros e He Hr. destruct base as [m [cf|e'] ls|]; try discriminate.
    cbn in He. injection He as ->. reflexivity.
Qed.

Lemma buildNewImage_stage_errors_witness :
  buildNewImage ["app"] [] EmptyString example_broken example_world
    = (Err (errors.Wrap
              (errors.Wrap (errors.New "unexpected EOF") "creating config file")
              "applying config"), example_world) ∧
  errors.Error
    (errors.Wrap
       (errors.Wrap (errors.New "unexpected EOF") "creating config file")
       "applying config")
    = "applying config: creating config file: unexpected EOF" ∧
  fst (buildNewImage ["missing"] [] EmptyString example_remote example_world)
    = Err (errors.Wrap
             (errors.Wrap os.ErrNotExist "creating tar archive")
             "adding layer").
Proof.
  split; [|split].
  - apply (buildNewImage_stage_errors ["app"] [] EmptyString example_broken
             example_world); reflexivity.
  - reflexivity.
  - pose proof (proj1 (proj2 (buildNewImage_stage_errors ["missing"] [] EmptyString
                                example_remote example_world))) as H.
    erewrite H; [reflexivity| |]; reflexivity.
Defined.

(** C10: the overrides are applied on every successful build, also when
    none was given: with no environment entries the environment of the
    result is empty, with no command string its command is the array
    holding the empty string, whatever the base image had. *)
Theorem buildNewImage_overrides_unconditional paths env cmd base w img w' :
  buildNewImage paths env cmd base w = (OK img, w') →
  ∃ cf, config_of img w' = OK cf ∧
        v1.Env (v1.Config_ cf) = env ∧
        v1.Cmd (v1.Config_ cf) = [cmd] ∧
        (env = [] → v1.Env (v1.Config_ cf) = []) ∧
        (cmd = EmptyString → v1.Cmd (v1.Config_ cf) = [EmptyString]).
Proof.
  intros H.
  destruct (buildNewImage_ok _ _ _ _ _ _ _ H)
    as (img1 & w1 & bb & cf0 & m & p & _ & _ & _ & _ & _ & _ & _ & Hcf).
  eexists. split; [exact Hcf|]. cbn. repeat split; by intros ->.
Qed.

Lemma buildNewImage_overrides_unconditional_witness :
  v1.Env (v1.Config_ example_config) = ["A=1"] ∧
  v1.Cmd (v1.Config_ example_config) = ["/bin/sh"] ∧
  ∃ cf, config_of
          (image_of (buildNewImage ["app"] [] EmptyString example_remote example_world))
          (snd (buildNewImage ["app"] [] EmptyString example_remote example_world))
          = OK cf ∧
        v1.Env (v1.Config_ cf) = [] ∧
        v1.Cmd (v1.Config_ cf) = [EmptyString] ∧
        (@nil string = [] → v1.Env (v1.Config_ cf) = []) ∧
        (EmptyString = EmptyString → v1.Cmd (v1.Config_ cf) = [EmptyString]).
Proof.
  split; [reflexivity|]. split; [reflexivity|].
  apply (buildNewImage_overrides_unconditional ["app"] [] EmptyString example_remote
           example_world).
  reflexivity.
Defined.

Lemma bind_inv {A B} (m : M A) (k : A → M B) w r w' :
  bind m k w = (r, w') →
  (∃ a w1, m w = (OK a, w1) ∧ k a w1 = (r, w')) ∨
  (∃ e, m w = (Err e, w') ∧ r = Err e).
Proof.
  unfold bind. destruct (m w) as [[a|e] w1]; [eauto|].
  intros [= <- <-]. eauto.
Qed.

Lemma wrapM_inv {A} msg (m : M A) w r w' :
  wrapM msg m w = (r, w') → ∃ r0, m w = (r0, w') ∧ r = wrap msg r0.
Proof.
  unfold wrapM. destruct (m w) as [r0 w1]. intros [= <- <-]. eauto.
Qed.

(** [buildNewImage], whatever its outcome: the only object it can change is
    the one the base image hands out, and of it only the environment and
    the command. *)
Lemma buildNewImage_frame paths env cmd base w r w' :
  buildNewImage paths env cmd base w = (r, w') →
  ∀ q cf, heap w !! q = Some cf →
    ∃ cf', heap w' !! q = Some cf' ∧ same_but_env_cmd cf cf' ∧
           (cf' = cf ∨ holds base q).
Proof.
  unfold buildNewImage. intros H q cf Hq.
  apply bind_inv in H as [(img1 & w1 & H1 & H)|(e & H1 & _)];
    apply wrapM_inv in H1 as (r1 & H1 & Hr1).
  - destruct (applyConfig_frame _ _ _ _ _ _ H1 q cf Hq) as (cf' & Hq' & Hsame).
    apply bind_inv in H as [(img2 & w2 & H2 & H)|(e & H2 & _)];
      apply wrapM_inv in H2 as (r2 & H2 & Hr2).
    + injection H as _ <-. exists cf'. split; [|done].
      by eapply addNewLayerFromFiles_frame.
    + exists cf'. split; [|done]. by eapply addNewLayerFromFiles_frame.
  - by eapply applyConfig_frame.
Qed.

(** C7, as the code has it: a run of [buildNewImage], successful or not,
    leaves the config of the base image unchanged up to the environment and
    the command; it leaves the config wholly unchanged when the base image
    is a fetched one, whose [ConfigFile()] makes a new object at each call;
    no other config object is changed either; and an image that is returned
    holds a config object that did not exist before.  (The layer list of
    the base image is part of the value [base], which nothing changes.) *)
Theorem buildNewImage_base_preserved paths env cmd base w r w' cf :
  buildNewImage paths env cmd base w = (r, w') →
  config_of base w = OK cf →
  (∃ cf', config_of base w' = OK cf' ∧ same_but_env_cmd cf cf' ∧
          (is_remote base = true → cf' = cf)) ∧
  (∀ q c, heap w !! q = Some c → ¬ holds base q → heap w' !! q = Some c) ∧
  (∀ img, r = OK img →
     ∃ m p ls, img = v1.MutateImage m p ls ∧ (length (heap w) ≤ p)%nat).
Proof.
  intros H Hcf. split; [|split].
  - destruct base as [m c ls | m p ls]; cbn in *.
    + exists cf. by repeat split.
    + destruct (heap w !! p) as [c|] eqn:Hp; [|discriminate].
      injection Hcf as ->.
      destruct (buildNewImage_frame _ _ _ _ _ _ _ H p cf Hp)
        as (cf' & -> & Hsame & _).
      exists cf'. split; [done|]. split; [exact Hsame|]. intros [=].
  - intros q c Hq Hnot.
    destruct (buildNewImage_frame _ _ _ _ _ _ _ H q c Hq)
      as (cf' & Hq' & _ & [->|Hh]); [done|by destruct Hnot].
  - intros img ->.
    destruct (buildNewImage_ok _ _ _ _ _ _ _ H)
      as (_ & _ & bb & _ & m & p & _ & _ & _ & _ & _ & -> & Hp & _).
    by eexists _, p, _.
Qed.

(** C7 fails as stated: built on a base image that hands out its own config
    object, here one that package [mutate] made, [buildNewImage] leaves
    that base image with the environment [B=2] and the command [/app]
    where it had [A=1] and [/bin/sh]. *)
Lemma buildNewImage_base_preserved_counterexample :
  config_of example_mutated example_world = OK example_config ∧
  config_of example_mutated
    (snd (buildNewImage ["app"] ["B=2"] "/app" example_mutated example_world))
    = OK (set_Cmd ["/app"] (set_Env ["B=2"] example_config)) ∧
  ¬ base_config_never_changes.
Proof.
  split; [reflexivity|]. split; [reflexivity|].
  intros H.
  specialize (H ["app"] ["B=2"] "/app" example_mutated example_world
                _ _ example_config eq_refl eq_refl).
  discriminate H.
Qed.

Lemma buildNewImage_base_preserved_witness :
  (∃ cf', config_of example_mutated
            (snd (buildNewImage ["app"] ["B=2"] "/app" example_mutated
                    example_world)) = OK cf' ∧
          same_but_env_cmd example_config cf' ∧
          (is_remote example_mutated = true → cf' = example_config)) ∧
  (∀ q c, heap example_world !! q = Some c → ¬ holds example_mutated q →
          heap (snd (buildNewImage ["app"] ["B=2"] "/app" example_mutated
                       example_world)) !! q = Some c) ∧
  (∀ img, fst (buildNewImage ["app"] ["B=2"] "/app" example_mutated
                 example_world) = OK img →
     ∃ m p ls, img = v1.MutateImage m p ls ∧
               (length (heap example_world) ≤ p)%nat).
Proof.
  apply (buildNewImage_base_preserved ["app"] ["B=2"] "/app" example_mutated
           example_world _ _ example_config); reflexivity.
Defined.

(** * Properties of the path functions *)

Example Clean_ex1 : filepath.Clean "a//b/./c/.." = "a/b". Proof. reflexivity. Qed.
Example Clean_ex2 : filepath.Clean "/../a/" = "/a". Proof. reflexivity. Qed.
Example Clean_ex3 : filepath.Clean "../../a/../.." = "../../..". Proof. reflexivity. Qed.
Example Clean_ex4 : filepath.Clean EmptyString = ".". Proof. reflexivity. Qed.
Example Clean_ex5 : filepath.Clean "./foo/bar.txt" = "foo/bar.txt". Proof. reflexivity. Qed.
Example Join_ex1 : filepath.Join "foo" "/bar.txt" = "foo/bar.txt". Proof. reflexivity. Qed.
Example Join_ex2 : filepath.Join "foo" EmptyString = "foo". Proof. reflexivity. Qed.
Example Base_ex1 : filepath.Base "/some/other/dir/" = "dir". Proof. reflexivity. Qed.
Example Base_ex2 : filepath.Base "//" = "/". Proof. reflexivity. Qed.
Example TrimPrefix_ex1 : strings.TrimPrefix "foo/bar.txt" "foo" = "/bar.txt". Proof. reflexivity. Qed.
Example TrimPrefix_ex2 : strings.TrimPrefix "foo/bar.txt" "./foo" = "foo/bar.txt". Proof. reflexivity. Qed.

Lemma append_cons ch (a b : string) : String ch a +:+ b = String ch (a +:+ b).
Proof. reflexivity. Qed.

Lemma append_nil_l (b : string) : EmptyString +:+ b = b.
Proof. reflexivity. Qed.

(** Reduction with the equations of the string append. *)
Ltac str_simpl :=
  repeat (progress (cbn; rewrite ?append_cons, ?append_nil_l)).

Lemma append_assoc (a b c : string) : (a +:+ b) +:+ c = a +:+ (b +:+ c).
Proof. induction a as [|ch a IH]; str_simpl; [done|by rewrite IH]. Qed.

Lemma append_nil_r (a : string) : a +:+ EmptyString = a.
Proof. induction a as [|ch a IH]; str_simpl; [done|by rewrite IH]. Qed.

Lemma Split_nonempty s : strings.Split s ≠ [].
Proof.
  destruct s as [|c s]; str_simpl; [done|].
  destruct (Ascii.eqb c "/"); [done|]. by destruct (strings.Split s).
Qed.

Lemma Split_app_sep a b :
  strings.Split (a +:+ "/" +:+ b) = strings.Split a ++ strings.Split b.
Proof.
  induction a as [|c a IH]; [done|].
  rewrite append_cons. cbn [strings.Split]. rewrite IH.
  destruct (Ascii.eqb c "/"); [done|].
  pose proof (Split_nonempty a). by destruct (strings.Split a).
Qed.

Lemma Split_no_sep c : has_sep c = false → strings.Split c = [c].
Proof.
  induction c as [|ch c IH]; str_simpl; [done|].
  intros [Hc Hs]%orb_false_iff. rewrite Hc, (IH Hs). done.
Qed.

Lemma Join_String ch x xs :
  strings.Join (String ch x :: xs) = String ch (strings.Join (x :: xs)).
Proof. unfold strings.Join. cbn. by destruct xs. Qed.

Lemma Join_Split s : strings.Join (strings.Split s) = s.
Proof.
  induction s as [|ch s IH]; str_simpl; [done|].
  pose proof (Split_nonempty s) as Hne.
  destruct (Ascii.eqb_spec ch "/") as [->|_].
  - unfold strings.Join in *. str_simpl.
    destruct (strings.Split s) as [|x xs]; [done|]. by rewrite IH.
  - destruct (strings.Split s) as [|x xs]; [done|].
    by rewrite Join_String, IH.
Qed.

Lemma Join_cons c cs : strings.Join (c :: cs) = c +:+ below cs.
Proof.
  unfold strings.Join. revert c.
  induction cs as [|d cs IH]; intros c; [by rewrite append_nil_r|].
  change (String.concat "/" (c :: d :: cs))
    with (c +:+ "/" +:+ String.concat "/" (d :: cs)).
  by rewrite IH.
Qed.

Lemma below_app rel1 rel2 : below (rel1 ++ rel2) = below rel1 +:+ below rel2.
Proof.
  induction rel1 as [|c rel1 IH]; cbn [below app]; [done|].
  by rewrite IH, !append_assoc.
Qed.

Lemma plain_no_sep c : plain c = true → has_sep c = false.
Proof. unfold plain. rewrite !andb_true_iff, negb_true_iff. tauto. Qed.

Lemma plain_nonempty c : plain c = true → c ≠ EmptyString.
Proof.
  unfold plain. rewrite !andb_true_iff, !negb_true_iff. intros H ->.
  by destruct H as [[[_ H] _] _].
Qed.

Lemma Split_path c cs :
  has_sep c = false → Forall (fun d => plain d = true) cs →
  strings.Split (c +:+ below cs) = c :: cs.
Proof.
  intros Hc Hcs. revert c Hc.
  induction Hcs as [|d cs Hd _ IH]; intros c Hc; cbn [below].
  - rewrite append_nil_r. by apply Split_no_sep.
  - rewrite Split_app_sep, (Split_no_sep c Hc).
    by rewrite IH; [|apply plain_no_sep].
Qed.

(** The elements of a path of plain names are these names. *)
Lemma Split_mk_path rooted c cs :
  plain c = true → Forall (fun d => plain d = true) cs →
  strings.Split (mk_path rooted c cs)
  = (if rooted then [EmptyString] else []) ++ c :: cs.
Proof.
  intros Hc Hcs. unfold mk_path. destruct rooted.
  - change ("/" +:+ c +:+ below cs) with (EmptyString +:+ "/" +:+ c +:+ below cs).
    by rewrite Split_app_sep, Split_path; [|apply plain_no_sep|].
  - rewrite append_nil_l. by rewrite Split_path; [|apply plain_no_sep|].
Qed.

Lemma clean_step_plain rooted stack c :
  plain c = true → filepath.clean_step rooted stack c = c :: stack.
Proof.
  unfold plain, filepath.clean_step.
  rewrite !andb_true_iff, !negb_true_iff. intros [[[_ H1] H2] H3].
  by rewrite H1, H2, H3.
Qed.

Lemma clean_fold_plain rooted cs stack :
  Forall (fun d => plain d = true) cs →
  fold_left (filepath.clean_step rooted) cs stack = rev cs ++ stack.
Proof.
  intros Hcs. revert stack.
  induction Hcs as [|d cs Hd _ IH]; intros stack; str_simpl; [done|].
  rewrite clean_step_plain, IH by done. by rewrite <- app_assoc.
Qed.

Lemma is_rooted_mk_path rooted c cs :
  plain c = true → filepath.is_rooted (mk_path rooted c cs) = rooted.
Proof.
  intros Hc. unfold mk_path. destruct rooted; [done|].
  destruct c as [|ch c]; [by apply plain_nonempty in Hc|].
  change (Ascii.eqb ch "/" = false).
  apply plain_no_sep in Hc. cbn in Hc. by apply orb_false_iff in Hc as [-> _].
Qed.

(** [Clean] leaves a path of plain names as it is. *)
Lemma Clean_mk_path rooted c cs :
  plain c = true → Forall (fun d => plain d = true) cs →
  filepath.Clean (mk_path rooted c cs) = mk_path rooted c cs.
Proof.
  intros Hc Hcs. unfold filepath.Clean.
  rewrite is_rooted_mk_path, Split_mk_path by done.
  assert (Hall : Forall (fun d => plain d = true) (c :: cs)) by by constructor.
  destruct rooted; cbn [app].
  - change (fold_left (filepath.clean_step true) (EmptyString :: c :: cs) [])
      with (fold_left (filepath.clean_step true) (c :: cs) []).
    rewrite clean_fold_plain, app_nil_r, rev_involutive, Join_cons by done.
    done.
  - rewrite clean_fold_plain, app_nil_r by done.
    destruct (rev (c :: cs)) as [|x xs] eqn:Hrev.
    + apply (f_equal (@rev string)) in Hrev. by rewrite rev_involutive in Hrev.
    + by rewrite <- Hrev, rev_involutive, Join_cons.
Qed.

Lemma mk_path_snoc rooted c cs name :
  mk_path rooted c cs +:+ "/" +:+ name = mk_path rooted c (cs ++ [name]).
Proof.
  unfold mk_path. rewrite below_app. cbn [below].
  by rewrite !append_assoc, append_nil_r.
Qed.

Lemma mk_path_nonempty rooted c cs : plain c = true → mk_path rooted c cs ≠ EmptyString.
Proof.
  intros Hc. unfold mk_path. destruct rooted; [done|].
  destruct c; [by apply plain_nonempty in Hc|done].
Qed.

(** Joining a plain name to a path of plain names appends it. *)
Lemma Join_mk_path rooted c cs name :
  plain c = true → Forall (fun d => plain d = true) cs → plain name = true →
  filepath.Join (mk_path rooted c cs) name = mk_path rooted c (cs ++ [name]).
Proof.
  intros Hc Hcs Hn. unfold filepath.Join.
  destruct (String.eqb_spec (mk_path rooted c cs) EmptyString) as [H|_];
    [by apply mk_path_nonempty in H|]. cbn [negb].
  rewrite mk_path_snoc. apply Clean_mk_path; [done|].
  apply Forall_app. split; [done|by constructor].
Qed.

Lemma HasPrefix_append s r : strings.HasPrefix (s +:+ r) s = true.
Proof.
  induction s as [|ch s IH]; [by destruct r|].
  rewrite append_cons. cbn [strings.HasPrefix].
  by rewrite Ascii.eqb_refl, IH.
Qed.

Lemma drop_append s r : strings.drop (String.length s) (s +:+ r) = r.
Proof. induction s as [|ch s IH]; [by destruct r|exact IH]. Qed.

Lemma TrimPrefix_append s r : strings.TrimPrefix (s +:+ r) s = r.
Proof.
  unfold strings.TrimPrefix. by rewrite HasPrefix_append, drop_append.
Qed.

Lemma elements_mk_path rooted c cs :
  plain c = true → Forall (fun d => plain d = true) cs →
  elements (mk_path rooted c cs) = c :: cs.
Proof.
  intros Hc Hcs. unfold elements. rewrite Split_mk_path by done.
  assert (Hall : Forall (fun d => plain d = true) (c :: cs)) by by constructor.
  assert (Hid : List.filter (fun c => negb (String.eqb c EmptyString)) (c :: cs)
                = c :: cs).
  { clear -Hall. induction Hall as [|d l Hd _ IH]; cbn [List.filter]; [done|].
    destruct (String.eqb_spec d EmptyString) as [->|_]; [done|]. cbn [negb].
    by rewrite IH. }
  by destruct rooted.
Qed.

(** The base name of a path of plain names is its last name. *)
Lemma Base_mk_path rooted c cs :
  plain c = true → Forall (fun d => plain d = true) cs →
  filepath.Base (mk_path rooted c cs) = default c (last cs).
Proof.
  intros Hc Hcs. unfold filepath.Base.
  destruct (String.eqb_spec (mk_path rooted c cs) EmptyString) as [H|_];
    [by apply mk_path_nonempty in H|].
  rewrite elements_mk_path by done. rewrite last_cons.
  by destruct (last cs).
Qed.

Lemma basename_mk_path rooted c cs :
  plain c = true → Forall (fun d => plain d = true) cs →
  os.basename (mk_path rooted c cs) = default c (last cs).
Proof.
  intros Hc Hcs. unfold os.basename.
  rewrite elements_mk_path by done. rewrite last_cons.
  by destruct (last cs).
Qed.

Lemma plain_last c cs :
  plain c = true → Forall (fun d => plain d = true) cs →
  plain (default c (last cs)) = true.
Proof.
  intros Hc Hcs. destruct (last cs) as [d|] eqn:Hl; [|done]. cbn.
  apply last_Some in Hl as (l' & ->).
  apply Forall_app in Hcs as [_ Hd]. by inversion Hd.
Qed.

Lemma Split_below rel :
  Forall (fun d => plain d = true) rel →
  strings.Split (below rel) = EmptyString :: rel.
Proof.
  intros Hrel. destruct Hrel as [|d rel Hd Hrel]; [done|].
  cbn [below].
  change ("/" +:+ d +:+ below rel) with (EmptyString +:+ "/" +:+ d +:+ below rel).
  by rewrite Split_app_sep, Split_path; [|apply plain_no_sep|].
Qed.

(** The archive path of what [tarwalk] finds below its source: joining
    [base] with the rest of the walked path puts the names after [base]. *)
Lemma Join_base_below base rel :
  plain base = true → Forall (fun d => plain d = true) rel →
  filepath.Join base (below rel) = base +:+ below rel.
Proof.
  intros Hb Hrel. unfold filepath.Join.
  destruct (String.eqb_spec base EmptyString) as [H|_]; [by apply plain_nonempty in H|].
  cbn [negb]. unfold filepath.Clean.
  pose proof (is_rooted_mk_path false base [] Hb) as Hr.
  unfold mk_path in Hr. cbn [below] in Hr.
  rewrite append_nil_l, append_nil_r in Hr.
  assert (Hr' : filepath.is_rooted (base +:+ "/" +:+ below rel) = false).
  { destruct base as [|ch base]; [done|]. exact Hr. }
  rewrite Hr', Split_app_sep, (Split_no_sep base) by by apply plain_no_sep.
  rewrite Split_below by done.
  change (fold_left (filepath.clean_step false) ([base] ++ EmptyString :: rel) [])
    with (fold_left (filepath.clean_step false) rel
            (filepath.clean_step false [] base)).
  rewrite clean_step_plain, clean_fold_plain by done.
  destruct (rev rel ++ [base]) as [|x xs] eqn:Hrev;
    [by destruct (rev rel)|].
  by rewrite <- Hrev, rev_app_distr, rev_involutive, <- Join_cons.
Qed.

Lemma first_element_base_below base rel :
  plain base = true → Forall (fun d => plain d = true) rel →
  first_element (base +:+ below rel) = base.
Proof.
  intros Hb Hrel. unfold first_element.
  by rewrite Split_path; [|apply plain_no_sep|].
Qed.

Lemma forallb_Forall {A} (f : A → bool) (l : list A) :
  forallb f l = true → Forall (fun x => f x = true) l.
Proof.
  induction l as [|x l IH]; cbn; [done|].
  intros [Hx Hl]%andb_true_iff. constructor; auto.
Qed.

(** A path that [plain_path] accepts is written with plain names. *)
Lemma plain_path_inv s :
  plain_path s = true →
  ∃ rooted c cs, plain c = true ∧ Forall (fun d => plain d = true) cs ∧
                 s = mk_path rooted c cs.
Proof.
  unfold plain_path. intros H.
  pose proof (Join_Split s) as Hs.
  destruct (strings.Split s) as [|x l]; [done|].
  assert (Hcase : (x = EmptyString ∧ ∃ c cs, l = c :: cs ∧
                     forallb plain (c :: cs) = true) ∨
                  forallb plain (x :: l) = true).
  { destruct (String.eqb_spec x EmptyString) as [->|Hx].
    - destruct l as [|c cs]; [done|]. left. eauto.
    - right. destruct x; [done|exact H]. }
  destruct Hcase as [(-> & c & cs & -> & Hall)|Hall].
  - apply forallb_Forall, Forall_cons in Hall as [Hc Hcs].
    exists true, c, cs. repeat split; [done..|].
    rewrite <- Hs. unfold mk_path. rewrite <- Join_cons. done.
  - apply forallb_Forall, Forall_cons in Hall as [Hc Hcs].
    exists false, x, l. repeat split; [done..|].
    rewrite <- Hs. unfold mk_path. by rewrite append_nil_l, <- Join_cons.
Qed.

(** * Properties of the archiver *)

(** Induction on a file system tree: a property holds of a directory when
    it holds of the nodes in its listing. *)
Lemma node_induction (P : os.node → Prop) :
  (∀ perm mtime content openErr, P (os.File perm mtime content openErr)) →
  (∀ perm mtime e, P (os.Dir perm mtime (Err e))) →
  (∀ perm mtime listing,
     Forall (fun kr : string * result os.node =>
               match snd kr with OK child => P child | Err _ => True end)
            listing →
     P (os.Dir perm mtime (OK listing))) →
  (∀ perm mtime target, P (os.Link perm mtime target)) →
  (∀ k perm mtime, P (os.Special k perm mtime)) →
  ∀ n, P n.
Proof.
  intros HFile HDirErr HDir HLink HSpecial.
  fix IH 1. intros [perm mtime content oe | perm mtime [listing|e]
                   | perm mtime target | k perm mtime].
  - apply HFile.
  - apply HDir. induction listing as [|[k [child|e]] l IHl]; constructor;
      cbn; auto.
  - apply HDirErr.
  - apply HLink.
  - apply HSpecial.
Qed.

Lemma rbind_ok {A B} (r : result A) (k : A → result B) b :
  rbind r k = OK b → ∃ a, r = OK a ∧ k a = OK b.
Proof. destruct r as [a|e]; cbn; [eauto|discriminate]. Qed.

(** A loop keeps what each round keeps. *)
Lemma range_invariant {S A} (P : S → Prop) (body : A → S → result S) l :
  (∀ a s s', In a l → P s → body a s = OK s' → P s') →
  ∀ s s', P s → range body l s = OK s' → P s'.
Proof.
  induction l as [|a l IH]; intros Hbody s s' Hs; cbn.
  - by intros [= <-].
  - intros (s1 & H1 & H2)%rbind_ok.
    eapply IH; [|eapply Hbody; [by left|exact Hs|exact H1]|exact H2].
    intros a' t t' Hin. apply Hbody. by right.
Qed.

(** [lstat] either finds the node under [name] in the listing or reports
    an error. *)
Lemma lstat_cases {R} name (found : os.node → R) (missing : error → R) listing :
  (∃ child, In (name, OK child) listing ∧
            filepath.lstat name found missing listing = found child) ∨
  (∃ e, filepath.lstat name found missing listing = missing e).
Proof.
  induction listing as [|[k r] l IH]; cbn.
  - right. eauto.
  - destruct (String.eqb_spec k name) as [->|_].
    + destruct r as [child|e]; [left|right]; eauto.
    + destruct IH as [(child & Hin & ->)|(e & ->)]; [left|right]; eauto.
Qed.

Lemma In_insert x y l : In x (sort.insert y l) → x = y ∨ In x l.
Proof.
  induction l as [|z l IH]; cbn.
  - intros [->|[]]. by left.
  - destruct (String.leb y z); cbn.
    + intros [->|H]; [by left|by right].
    + intros [->|H]; [right; by left|].
      destruct (IH H) as [->|H']; [by left|right; by right].
Qed.

Lemma In_Strings x l : In x (sort.Strings l) → In x l.
Proof.
  induction l as [|y l IH]; cbn; [done|].
  intros [->|H]%In_insert; auto.
Qed.

Lemma names_ok_listing Q perm mtime listing k r :
  names_ok Q (os.Dir perm mtime (OK listing)) = true →
  In (k, r) listing →
  Q k = true ∧ match r with OK child => names_ok Q child = true | Err _ => True end.
Proof.
  cbn. intros H Hin. rewrite forallb_forall in H.
  apply H in Hin. cbn in Hin. apply andb_true_iff in Hin as [Hk Hr].
  split; [done|]. by destruct r.
Qed.

(** The invariant rule of [filepath.Walk]: a property [P] of the state that
    every call of [walkFn] on a path in [Good] keeps is kept by the walk,
    when [Good] is closed under joining the names [Q] of the tree. *)
Lemma walk_invariant {S} (walkFn : string → result os.FileInfo → S → result S)
  (Q : string → bool) (Good : string → Prop) (P : S → Prop) :
  (∀ path n s s', Good path → P s →
     walkFn path (OK (os.info path n)) s = OK s' → P s') →
  (∀ path e s s', Good path → P s → walkFn path (Err e) s = OK s' → P s') →
  (∀ path name, Good path → Q name = true →
     Good (filepath.Join path name)) →
  ∀ n path s s',
    names_ok Q n = true → Good path → P s →
    filepath.walk walkFn path n s = OK s' → P s'.
Proof.
  intros Hnode Herr Hjoin.
  induction n as [perm mtime content oe | perm mtime e | perm mtime listing IH
                 | perm mtime target | k perm mtime] using node_induction;
    intros path s s' Hok Hgood Hs; cbn [filepath.walk]; eauto.
  intros (s1 & H1 & H2)%rbind_ok.
  assert (Hs1 : P s1) by eauto.
  revert H2. apply range_invariant; [|done].
  intros name t t' Hin%In_Strings Ht.
  apply in_map_iff in Hin as ([k r] & <- & Hin). cbn [fst].
  destruct (names_ok_listing _ _ _ _ _ _ Hok Hin) as [Hk _].
  destruct (lstat_cases k
              (fun child => filepath.walk walkFn (filepath.Join path k) child t)
              (fun e => walkFn (filepath.Join path k) (Err e) t) listing)
    as [(child & Hc & ->)|(e & ->)]; [|by eauto].
  destruct (names_ok_listing _ _ _ _ _ _ Hok Hc) as [_ Hchild].
  rewrite Forall_forall in IH. specialize (IH _ ltac:(apply list_elem_of_In; exact Hc)). cbn in IH.
  by eauto.
Qed.

Lemma Size_renamed source baseDir path h :
  tar.Size (renamed source baseDir path h) = tar.Size h.
Proof. unfold renamed. by destruct (negb (String.eqb baseDir EmptyString)). Qed.

(** What one call of the function literal of [tarwalk] does on the node at
    [path], when the writer is ready for a new member and the node can be
    read: it fails when no header can be made, and otherwise adds exactly
    the member [entry_of]. *)
Lemma tarwalk_func_run source baseDir path n tw :
  tar.remaining tw ≤ 0 → readable n = true →
  tarwalk_func source baseDir path (OK (os.info path n)) tw
  = (e ←? entry_of source baseDir path n; OK (e :: tw))%result.
Proof.
  intros Hrem Hread. unfold tarwalk_func, entry_of. cbn [rbind os.Name os.info].
  destruct (tar.FileInfoHeader (os.info path n) (os.basename path))
    as [h|e] eqn:Hh; cbn [rbind]; [|done].
  fold (renamed source baseDir path h).
  unfold tar.WriteHeader. destruct (Z.ltb_spec 0 (tar.remaining tw)); [lia|].
  cbn [rbind].
  destruct n as [perm mtime content [oe|] | perm mtime l | perm mtime t
                | k perm mtime]; try done.
  cbn. unfold io.Copy, tar.Write. cbn [tar.remaining tar.hdr tar.body length].
  rewrite Size_renamed.
  assert (tar.Size h = Z.of_nat (length content)) as ->.
  { cbn in Hh. by injection Hh as <-. }
  destruct (Z.ltb_spec (Z.of_nat (length content) - Z.of_nat 0)
              (Z.of_nat (length content))); [lia|done].
Qed.

(** A successful call added exactly the member [entry_of], to a writer that
    was ready for it, and leaves the writer ready for the next. *)
Lemma tarwalk_func_ok source baseDir path n tw tw' :
  tarwalk_func source baseDir path (OK (os.info path n)) tw = OK tw' →
  ∃ e, entry_of source baseDir path n = OK e ∧ tw' = e :: tw ∧
       tar.remaining tw ≤ 0 ∧ tar.remaining tw' ≤ 0.
Proof.
  intros H.
  assert (Hrem : tar.remaining tw ≤ 0).
  { unfold tarwalk_func in H. cbn [rbind] in H.
    apply rbind_ok in H as (h & _ & H). apply rbind_ok in H as (tw1 & H & _).
    unfold tar.WriteHeader in H.
    by destruct (Z.ltb_spec 0 (tar.remaining tw)). }
  assert (Hread : readable n = true).
  { destruct n as [perm mtime content [oe|] | | |]; try done.
    unfold tarwalk_func in H. cbn [rbind] in H.
    apply rbind_ok in H as (h & _ & H). apply rbind_ok in H as (tw1 & _ & H).
    cbn in H. discriminate. }
  rewrite tarwalk_func_run in H by done.
  apply rbind_ok in H as (e & He & [= <-]).
  exists e. repeat split; try done.
  unfold entry_of in He. apply rbind_ok in He as (h & Hh & [= <-]).
  cbn [tar.remaining tar.hdr tar.body]. rewrite Size_renamed.
  destruct n; cbn in Hh |- *; try (injection Hh as <-; cbn; lia).
  destruct k; try discriminate; injection Hh as <-; cbn; lia.
Qed.

Lemma tarwalk_func_err source baseDir path e tw :
  tarwalk_func source baseDir path (Err e) tw = Err e.
Proof. reflexivity. Qed.

Lemma names_ok_any n : names_ok (fun _ => true) n = true.
Proof.
  induction n as [| | perm mtime listing IH | |] using node_induction; try done.
  cbn. apply forallb_forall. intros [k r] Hin. cbn.
  rewrite Forall_forall in IH.
  specialize (IH _ ltac:(apply list_elem_of_In; exact Hin)).
  by destruct r.
Qed.

(** [tarwalk] only adds members, and leaves the writer ready for a new
    member. *)
Lemma tarwalk_extends fs source tw tw' :
  tar.remaining tw ≤ 0 →
  tarwalk fs source tw = OK tw' →
  tar.remaining tw' ≤ 0 ∧ ∃ es, tw' = es ++ tw.
Proof.
  intros Hrem. unfold tarwalk, filepath.Walk.
  intros (info & _ & H)%rbind_ok.
  destruct (fs source) as [n|e]; [|discriminate].
  revert H.
  apply (walk_invariant _ (fun _ => true) (fun _ => True)
           (fun s => tar.remaining s ≤ 0 ∧ ∃ es, s = es ++ tw));
    try done.
  - intros path m s s' _ [_ (es & ->)] H.
    apply tarwalk_func_ok in H as (e & _ & -> & _ & Hrem').
    split; [done|]. by exists (e :: es).
  - apply names_ok_any.
  - split; [done|]. by exists [].
Qed.

Lemma range_tarwalk_extends fs paths tw tw' :
  tar.remaining tw ≤ 0 →
  range (tarwalk fs) paths tw = OK tw' →
  tar.remaining tw' ≤ 0 ∧ ∃ es, tw' = es ++ tw.
Proof.
  intros Hrem.
  apply (range_invariant (fun s => tar.remaining s ≤ 0 ∧ ∃ es, s = es ++ tw)).
  - intros p s s' _ [Hs (es & ->)] H.
    apply tarwalk_extends in H as [Hrem' (es' & ->)]; [|done].
    split; [done|]. exists (es' ++ es). by rewrite app_assoc.
  - split; [done|]. by exists [].
Qed.

(** [tarwalk] on a path that names a symbolic link or a special file: one
    call of the function literal, on that node. *)
Lemma tarwalk_special fs source n info tw :
  fs source = OK n → is_special n = true →
  os.Stat fs source = OK info → tar.remaining tw ≤ 0 →
  tarwalk fs source tw
  = (e ←? entry_of source (baseDir_of fs source) source n; OK (e :: tw))%result.
Proof.
  intros Hn Hsp Hstat Hrem. unfold tarwalk, baseDir_of, filepath.Walk.
  rewrite Hstat, Hn. cbn [rbind].
  destruct n; try discriminate; cbn [filepath.walk];
    by rewrite tarwalk_func_run.
Qed.

Lemma range_app {S A} (body : A → S → result S) l1 l2 s :
  range body (l1 ++ l2) s = (s1 ←? range body l1 s; range body l2 s1)%result.
Proof.
  revert s. induction l1 as [|a l1 IH]; intros s; cbn; [done|].
  destruct (body a s); cbn; [apply IH|done].
Qed.

(** ** Special files *)

(** C1 fails as stated: a character device and a symbolic link among the
    input paths each get a member in the archive, a header without content;
    a symbolic link inside a walked directory gets one too; and a socket
    makes the whole operation fail. *)
Lemma special_files_get_header_counterexample :
  createTarFile special_fs ["null"] []
    = OK [tar.mkEntry (tar.mkHeader tar.TypeChar "null" EmptyString 0 438 1) []] ∧
  createTarFile special_fs ["link"] []
    = OK [tar.mkEntry (tar.mkHeader tar.TypeSymlink "link" "link" 0 511 3) []] ∧
  createTarFile special_fs ["dir"] []
    = OK [tar.mkEntry (tar.mkHeader tar.TypeDir "dir" EmptyString 0 493 5) [];
          tar.mkEntry (tar.mkHeader tar.TypeSymlink "dir/l" "l" 0 511 6) []] ∧
  createTarFile special_fs ["sock"] []
    = Err (errors.New "archive/tar: sockets not supported") ∧
  ¬ special_files_skipped.
Proof.
  repeat split; try reflexivity.
  intros H.
  specialize (H special_fs [] "null" [] _ eq_refl eq_refl).
  discriminate H.
Qed.

Lemma entry_of_special source baseDir path n :
  is_special n = true →
  (refused n = false →
   ∃ e, entry_of source baseDir path n = OK e ∧ tar.body e = []) ∧
  (refused n = true → ∃ err, entry_of source baseDir path n = Err err).
Proof.
  unfold entry_of. destruct n as [| | perm mtime t | k perm mtime]; try done;
    intros _; split; intros Hr; try discriminate; cbn.
  - eauto.
  - destruct k; try discriminate; cbn; eauto.
  - destruct k; try discriminate; cbn; eauto.
Qed.

(** C1, as the code has it: a symbolic link, a device or a named pipe among
    the input paths is not skipped; the archiver writes exactly one member
    for it, a header without content, and goes on with the next path; a
    socket, for which no header can be made, makes the operation fail.  The
    same holds of every such node that the walk of a directory meets. *)
Theorem special_files_get_header fs before source after n info tw1 :
  fs source = OK n → is_special n = true →
  os.Stat fs source = OK info →
  range (tarwalk fs) before (tar.NewWriter []) = OK tw1 →
  (refused n = false →
   ∃ e, entry_of source (baseDir_of fs source) source n = OK e ∧
        tar.body e = [] ∧
        createTarFile fs (before ++ source :: after) []
        = (tw ←? range (tarwalk fs) after (e :: tw1); OK (tar.Entries tw))%result ∧
        ∀ out, createTarFile fs (before ++ source :: after) [] = OK out →
               In e out) ∧
  (refused n = true →
   ∃ err, createTarFile fs (before ++ source :: after) [] = Err err) ∧
  (∀ baseDir path tw,
     tar.remaining tw ≤ 0 → refused n = false →
     ∃ e, tar.body e = [] ∧
          tarwalk_func source baseDir path (OK (os.info path n)) tw
          = OK (e :: tw)).
Proof.
  intros Hn Hsp Hstat Hbefore.
  assert (Hrem1 : tar.remaining tw1 ≤ 0).
  { by apply range_tarwalk_extends in Hbefore as [? _]. }
  assert (Hrun : createTarFile fs (before ++ source :: after) []
                 = (tw ←? (e ←? entry_of source (baseDir_of fs source) source n;
                           OK (e :: tw1));
                    tw ←? range (tarwalk fs) after tw;
                    OK (tar.Entries tw))%result).
  { unfold createTarFile. rewrite range_app, Hbefore. cbn [rbind range].
    rewrite (tarwalk_special _ _ _ _ _ Hn Hsp Hstat Hrem1).
    by destruct (entry_of source (baseDir_of fs source) source n). }
  destruct (entry_of_special source (baseDir_of fs source) source n Hsp)
    as [Hemit Hfail].
  split; [|split].
  - intros Hr. destruct (Hemit Hr) as (e & He & Hbody).
    exists e. rewrite Hrun, He. cbn [rbind]. repeat split; try done.
    intros out (tw & Htw & [= <-])%rbind_ok.
    apply range_tarwalk_extends in Htw as [_ (es & ->)].
    + unfold tar.Entries. apply in_rev. rewrite rev_involutive.
      apply in_or_app. right. by left.
    + cbn. rewrite Hbody. unfold entry_of in He.
      apply rbind_ok in He as (h & Hh & [= <-]). cbn. rewrite Size_renamed.
      destruct n as [| | |k]; try done; cbn in Hh.
      * injection Hh as <-. cbn. lia.
      * destruct k; try discriminate; injection Hh as <-; cbn; lia.
  - intros Hr. destruct (Hfail Hr) as (err & He).
    exists err. by rewrite Hrun, He.
  - intros baseDir path tw Hrem Hr.
    destruct (entry_of_special source baseDir path n Hsp) as [Hemit' _].
    destruct (Hemit' Hr) as (e & He & Hbody). exists e. split; [done|].
    rewrite tarwalk_func_run, He; [done..|]. by destruct n.
Qed.

Lemma special_files_get_header_witness :
  (refused (os.Special os.CharDevice 438 1) = false →
   ∃ e, entry_of "null" (baseDir_of special_fs "null") "null"
          (os.Special os.CharDevice 438 1) = OK e ∧
        tar.body e = [] ∧
        createTarFile special_fs (["link"] ++ "null" :: ["dir"]) []
        = (tw ←? range (tarwalk special_fs) ["dir"]
                   (e :: [tar.mkEntry
                            (tar.mkHeader tar.TypeSymlink "link" "link" 0 511 3)
                            []]);
           OK (tar.Entries tw))%result ∧
        ∀ out, createTarFile special_fs (["link"] ++ "null" :: ["dir"]) []
               = OK out → In e out) ∧
  (refused (os.Special os.CharDevice 438 1) = true →
   ∃ err, createTarFile special_fs (["link"] ++ "null" :: ["dir"]) []
          = Err err) ∧
  (∀ baseDir path tw,
     tar.remaining tw ≤ 0 → refused (os.Special os.CharDevice 438 1) = false →
     ∃ e, tar.body e = [] ∧
          tarwalk_func "null" baseDir path
            (OK (os.info path (os.Special os.CharDevice 438 1))) tw
          = OK (e :: tw)).
Proof.
  apply (special_files_get_header special_fs ["link"] "null" ["dir"]
           (os.Special os.CharDevice 438 1)
           (os.info "null" (os.Special os.CharDevice 438 1))
           [tar.mkEntry (tar.mkHeader tar.TypeSymlink "link" "link" 0 511 3) []]);
    reflexivity.
Defined.

(** ** The names of the entries *)

Lemma mk_path_below rooted c cs rel :
  mk_path rooted c cs +:+ below rel = mk_path rooted c (cs ++ rel).
Proof. unfold mk_path. by rewrite below_app, !append_assoc. Qed.

Lemma first_element_plain b : plain b = true → first_element b = b.
Proof.
  intros Hb. unfold first_element. by rewrite Split_no_sep; [|apply plain_no_sep].
Qed.

Lemma Name_FileInfoHeader path n h :
  tar.FileInfoHeader (os.info path n) (os.basename path) = OK h →
  os.ModeIsDir (os.mode_of n) = false →
  tar.Name h = os.basename path.
Proof.
  destruct n as [| | |k]; cbn; intros Hh Hd; try discriminate;
    try (by injection Hh as <-).
  destruct k; try discriminate; by injection Hh as <-.
Qed.

(** The entries that [tarwalk] adds for a source written with plain names:
    under a directory source, the base name of the source followed by the
    names that lead to the node; for any other source, its base name. *)
Lemma tarwalk_names fs source n tw tw' :
  plain_path source = true → fs source = OK n → names_ok plain n = true →
  tarwalk fs source tw = OK tw' →
  ∃ es, tw' = es ++ tw ∧
        Forall (fun e => ∃ rel, Forall (fun d => plain d = true) rel ∧
                  entry_name e = filepath.Base source +:+ below rel) es ∧
        (∀ info, os.Stat fs source = OK info → os.IsDir info = false →
           ∃ e, es = [e] ∧ entry_name e = filepath.Base source).
Proof.
  intros (rooted & c & cs & Hc & Hcs & Hsrc)%plain_path_inv Hn Hok.
  pose proof (Base_mk_path rooted c cs Hc Hcs) as HBase.
  pose proof (basename_mk_path rooted c cs Hc Hcs) as Hbasename.
  pose proof (plain_last c cs Hc Hcs) as Hb.
  rewrite <- Hsrc in HBase, Hbasename.
  set (b := default c (last cs)) in *.
  unfold tarwalk, filepath.Walk.
  intros (info & Hstat & H)%rbind_ok. rewrite Hn in H.
  destruct (os.IsDir info) eqn:Hdir.
  - (* a directory: every member is renamed *)
    assert (Hres : ∃ es, tw' = es ++ tw ∧
              Forall (fun e => ∃ rel, Forall (fun d => plain d = true) rel ∧
                        entry_name e = filepath.Base source +:+ below rel) es).
    { revert H.
      apply (walk_invariant _ plain
               (fun path => ∃ rel, Forall (fun d => plain d = true) rel ∧
                                   path = source +:+ below rel)
               (fun s => ∃ es, s = es ++ tw ∧
                  Forall (fun e => ∃ rel, Forall (fun d => plain d = true) rel ∧
                            entry_name e = filepath.Base source +:+ below rel)
                         es)); try done.
      - intros path m s s' (rel & Hrel & ->) (es & -> & Hes) H.
        apply tarwalk_func_ok in H as (e & He & -> & _).
        exists (e :: es). split; [done|]. constructor; [|done].
        exists rel. split; [done|].
        unfold entry_of in He. apply rbind_ok in He as (h & _ & [= <-]).
        unfold entry_name, renamed. cbn [tar.hdr].
        rewrite HBase.
        destruct (String.eqb_spec b EmptyString) as [Hb0|_];
          [by apply plain_nonempty in Hb|].
        cbn [negb tar.set_Name tar.Name]. unfold filepath.ToSlash.
        rewrite TrimPrefix_append. by apply Join_base_below.
      - intros path name (rel & Hrel & ->) Hname.
        exists (rel ++ [name]). split; [apply Forall_app; by split; [|constructor]|].
        rewrite Hsrc, !mk_path_below, app_assoc.
        apply Join_mk_path; [done| |done]. by apply Forall_app.
      - exists []. split; [done|]. by rewrite append_nil_r.
      - by exists []. }
    destruct Hres as (es & -> & Hes). exists es. repeat split; try done.
    intros info' Hstat'. rewrite Hstat in Hstat'. injection Hstat' as <-.
    by rewrite Hdir.
  - (* not a directory: one member, under the name of the file *)
    assert (Hnd : os.ModeIsDir (os.mode_of n) = false).
    { unfold os.Stat in Hstat. rewrite Hn in Hstat. cbn in Hstat.
      destruct n as [|perm mtime l| |]; try done.
      cbn in Hstat. injection Hstat as <-. done. }
    assert (H1 : tarwalk_func source EmptyString source (OK (os.info source n)) tw
                 = OK tw').
    { destruct n as [|perm mtime l| |]; try done. }
    apply tarwalk_func_ok in H1 as (e & He & -> & _).
    unfold entry_of in He. apply rbind_ok in He as (h & Hh & [= <-]).
    assert (Hname : entry_name
                      (tar.mkEntry (renamed source EmptyString source h) (content_of n))
                    = filepath.Base source).
    { unfold entry_name, renamed. cbn.
      by rewrite (Name_FileInfoHeader _ _ _ Hh Hnd), Hbasename, HBase. }
    eexists [_]. split; [done|]. split.
    + constructor; [|done]. exists []. split; [done|].
      by rewrite Hname, append_nil_r.
    + intros _ _ _. eauto.
Qed.

Lemma from_source_of_names fs p es :
  plain_path p = true →
  Forall (fun e => ∃ rel, Forall (fun d => plain d = true) rel ∧
            entry_name e = filepath.Base p +:+ below rel) es →
  (∀ info, os.Stat fs p = OK info → os.IsDir info = false →
     ∃ e, es = [e] ∧ entry_name e = filepath.Base p) →
  from_source fs p (rev es).
Proof.
  intros (rooted & c & cs & Hc & Hcs & ->)%plain_path_inv Hes Hfile.
  pose proof (plain_last c cs Hc Hcs) as Hb.
  rewrite <- (Base_mk_path rooted c cs Hc Hcs) in Hb.
  split.
  - apply Forall_rev. eapply Forall_impl; [exact Hes|].
    intros e (rel & Hrel & ->). by apply first_element_base_below.
  - intros info Hstat Hdir. destruct (Hfile info Hstat Hdir) as (e & -> & He).
    by exists e.
Qed.

(** The archive is made of one run of entries for each source, in the order
    of the sources. *)
Lemma range_tarwalk_segments fs paths tw tw' :
  sources_ok fs paths = true →
  range (tarwalk fs) paths tw = OK tw' →
  ∃ segs, tar.Entries tw' = tar.Entries tw ++ concat segs ∧
          Forall2 (from_source fs) paths segs.
Proof.
  revert tw. induction paths as [|p paths IH]; intros tw Hok; cbn.
  - intros [= <-]. exists []. split; [by rewrite app_nil_r|constructor].
  - intros (tw1 & H1 & H2)%rbind_ok.
    cbn in Hok. apply andb_true_iff in Hok as [Hp Hok].
    apply andb_true_iff in Hp as [Hplain Hnames].
    assert (∃ n, fs p = OK n) as [n Hn].
    { unfold tarwalk, os.Stat in H1. destruct (fs p); [eauto|discriminate]. }
    rewrite Hn in Hnames.
    destruct (tarwalk_names _ _ _ _ _ Hplain Hn Hnames H1)
      as (es & -> & Hes & Hfile).
    destruct (IH _ Hok H2) as (segs & Hent & Hsegs).
    exists (rev es :: segs). split.
    + rewrite Hent. unfold tar.Entries. cbn [concat].
      by rewrite rev_app_distr, <- app_assoc.
    + constructor; [|done]. by apply from_source_of_names.
Qed.

(** C6 fails as stated: two sources with the same base name give entries
    with the same name, for two files as for two directories. *)
Lemma sources_keep_apart_counterexample :
  map entry_name
    (match createTarFile twin_fs ["a/x"; "b/x"] [] with
     | OK out => out
     | Err _ => []
     end) = ["x"; "x"] ∧
  map entry_name
    (match createTarFile twin_fs ["a/foo"; "b/foo"] [] with
     | OK out => out
     | Err _ => []
     end) = ["foo"; "foo/bar.txt"; "foo"; "foo/bar.txt"] ∧
  ¬ entries_never_collide.
Proof.
  split; [reflexivity|]. split; [reflexivity|].
  intros H.
  assert (Hnd : NoDup ["a/x"; "b/x"]).
  { apply (bool_decide_unpack _). by vm_compute. }
  specialize (H twin_fs ["a/x"; "b/x"] _ Hnd eq_refl).
  cbn in H. apply NoDup_cons in H as [H _]. apply H. by left.
Qed.

(** C6, as the code has it: for sources written with plain names, the
    archive is one run of entries per source; every entry of a source lands
    under the base name of that source, and a source that is not a
    directory gives one entry named by its base name.  So the entries of
    two sources have different names when the base names of the sources
    differ; nothing keeps apart sources with the same base name. *)
Theorem sources_keep_apart fs paths out :
  sources_ok fs paths = true →
  createTarFile fs paths [] = OK out →
  ∃ segs,
    out = concat segs ∧
    Forall2 (from_source fs) paths segs ∧
    (∀ i j p q si sj e e',
       paths !! i = Some p → paths !! j = Some q →
       filepath.Base p ≠ filepath.Base q →
       segs !! i = Some si → segs !! j = Some sj →
       In e si → In e' sj →
       entry_name e ≠ entry_name e').
Proof.
  intros Hok. unfold createTarFile.
  intros (tw & Htw & [= <-])%rbind_ok.
  destruct (range_tarwalk_segments _ _ _ _ Hok Htw) as (segs & Hent & Hsegs).
  exists segs. split; [exact Hent|]. split; [done|].
  intros i j p q si sj e e' Hp Hq Hne Hsi Hsj He He' Heq.
  destruct (Forall2_lookup_lr _ _ _ _ _ _ Hsegs Hp Hsi) as [Hi _].
  destruct (Forall2_lookup_lr _ _ _ _ _ _ Hsegs Hq Hsj) as [Hj _].
  rewrite Forall_forall in Hi, Hj.
  apply list_elem_of_In, Hi in He. apply list_elem_of_In, Hj in He'.
  apply Hne. by rewrite <- He, <- He', Heq.
Qed.

Lemma sources_keep_apart_witness :
  ∃ segs,
    match createTarFile twin_fs ["a/foo"; "b/x"] [] with
    | OK out => out
    | Err _ => []
    end = concat segs ∧
    Forall2 (from_source twin_fs) ["a/foo"; "b/x"] segs ∧
    (∀ i j p q si sj e e',
       ["a/foo"; "b/x"] !! i = Some p → ["a/foo"; "b/x"] !! j = Some q →
       filepath.Base p ≠ filepath.Base q →
       segs !! i = Some si → segs !! j = Some sj →
       In e si → In e' sj →
       entry_name e ≠ entry_name e').
Proof.
  apply (sources_keep_apart twin_fs ["a/foo"; "b/x"]); reflexivity.
Defined.

(** ** Path prefixing *)

Lemma tarwalk_Dir fs source perm mtime l tw :
  fs source = OK (os.Dir perm mtime l) →
  tarwalk fs source tw
  = filepath.walk (tarwalk_func source (filepath.Base source)) source
      (os.Dir perm mtime l) tw.
Proof.
  intros Hn. unfold tarwalk, os.Stat, filepath.Walk. by rewrite Hn.
Qed.

Lemma tarwalk_File fs source perm mtime content oe tw :
  fs source = OK (os.File perm mtime content oe) →
  tarwalk fs source tw
  = tarwalk_func source EmptyString source
      (OK (os.info source (os.File perm mtime content oe))) tw.
Proof.
  intros Hn. unfold tarwalk, os.Stat, filepath.Walk. by rewrite Hn.
Qed.

(** A source that is a readable regular file gives exactly one entry, under
    the last element of its path, however the path is written. *)
Lemma single_file_entry fs source perm mtime content :
  fs source = OK (os.File perm mtime content None) →
  createTarFile fs [source] []
  = OK [tar.mkEntry
          (tar.mkHeader tar.TypeReg (os.basename source) EmptyString
             (Z.of_nat (length content)) perm mtime)
          content].
Proof.
  intros Hn. unfold createTarFile. cbn [range tar.NewWriter rev rbind].
  rewrite (tarwalk_File _ _ _ _ _ _ _ Hn).
  by rewrite tarwalk_func_run.
Qed.

(** A source directory written with plain names that holds one regular
    file: the directory gets an entry under its base name, and the file an
    entry under that base name, a slash and its own name. *)
Lemma directory_file_entry fs source perm mtime name fperm fmtime content :
  plain_path source = true → plain name = true →
  fs source
  = OK (os.Dir perm mtime
          (OK [(name, OK (os.File fperm fmtime content None))])) →
  names_of (createTarFile fs [source] [])
  = [filepath.Base source; filepath.Base source +:+ "/" +:+ name].
Proof.
  intros (rooted & c & cs & Hc & Hcs & Hsrc)%plain_path_inv Hname Hn.
  pose proof (Base_mk_path rooted c cs Hc Hcs) as HBase.
  pose proof (plain_last c cs Hc Hcs) as Hb.
  rewrite <- Hsrc in HBase. rewrite <- HBase in Hb.
  assert (Hb0 : String.eqb (filepath.Base source) EmptyString = false).
  { apply String.eqb_neq. by apply plain_nonempty. }
  assert (Hjoin : filepath.Join source name = source +:+ below [name]).
  { rewrite Hsrc, mk_path_below. by apply Join_mk_path. }
  unfold createTarFile. cbn [range tar.NewWriter rev rbind].
  rewrite (tarwalk_Dir _ _ _ _ _ _ Hn). cbn [filepath.walk].
  rewrite tarwalk_func_run by done.
  unfold entry_of at 1.
  cbn [tar.FileInfoHeader os.info os.Mode os.mode_of os.Type_ rbind
         map fst sort.Strings fold_right sort.insert range filepath.lstat].
  rewrite String.eqb_refl. cbn [filepath.walk].
  rewrite tarwalk_func_run;
    [|cbn [tar.remaining tar.hdr tar.body length]; rewrite Size_renamed;
      cbn; lia|done].
  unfold entry_of.
  cbn [tar.FileInfoHeader os.info os.Mode os.mode_of os.Type_ rbind
         names_of tar.Entries rev app map entry_name tar.hdr].
  unfold renamed, filepath.ToSlash. rewrite Hb0. cbn [negb tar.set_Name tar.Name].
  rewrite Hjoin, TrimPrefix_append.
  pose proof (TrimPrefix_append source EmptyString) as Hroot.
  rewrite append_nil_r in Hroot. rewrite Hroot.
  change (filepath.Join (filepath.Base source) EmptyString)
    with (filepath.Join (filepath.Base source) (below [])).
  rewrite !Join_base_below by (done || by constructor).
  cbn [below]. by rewrite !append_nil_r.
Qed.

(** C2 on concrete sources.  Archiving the directory [foo] holding
    [bar.txt] gives the entry [foo/bar.txt] when the source is written
    [foo] or [/srv/foo]; written [./foo], the same directory gives the
    entry [foo/foo/bar.txt] and no entry [foo/bar.txt]: [filepath.Walk]
    hands out the cleaned path [foo/bar.txt], from which
    [strings.TrimPrefix] cannot take away the source [./foo].  The file
    [baz.txt] gives the one entry [baz.txt] either way. *)
Theorem dot_slash_source_doubles_prefix :
  names_of (createTarFile prefix_fs ["foo"] []) = ["foo"; "foo/bar.txt"] ∧
  names_of (createTarFile prefix_fs ["/srv/foo"] []) = ["foo"; "foo/bar.txt"] ∧
  names_of (createTarFile prefix_fs ["./foo"] []) = ["foo"; "foo/foo/bar.txt"] ∧
  ¬ In "foo/bar.txt" (names_of (createTarFile prefix_fs ["./foo"] [])) ∧
  names_of (createTarFile prefix_fs ["baz.txt"] []) = ["baz.txt"] ∧
  names_of (createTarFile prefix_fs ["./baz.txt"] []) = ["baz.txt"].
Proof.
  repeat split; try reflexivity.
  intros [H|[H|[]]]; discriminate H.
Qed.

(** ** Determinism *)

Lemma lstat_find {R} name (found : os.node → R) (missing : error → R) l :
  filepath.lstat name found missing l
  = match find_name name l with
    | Some (OK c) => found c
    | Some (Err e) => missing e
    | None => missing os.ErrNotExist
    end.
Proof.
  induction l as [|[k r] l IH]; cbn; [done|].
  destruct (String.eqb k name); [by destruct r|exact IH].
Qed.

Lemma find_name_In name l r : find_name name l = Some r → In (name, r) l.
Proof.
  induction l as [|[k r'] l IH]; cbn; [done|].
  destruct (String.eqb_spec k name) as [->|_].
  - intros [= ->]. by left.
  - intros H. right. by apply IH.
Qed.

Lemma all_names_In P names name :
  all_names P names → In name names → P name.
Proof.
  induction names as [|x names IH]; cbn; [done|].
  intros [Hx Hall] [->|Hin]; auto.
Qed.

Lemma range_ext {S A} (body body' : A → S → result S) l s :
  (∀ a t, In a l → body a t = body' a t) →
  range body l s = range body' l s.
Proof.
  revert s. induction l as [|a l IH]; intros s Hext; cbn; [done|].
  rewrite Hext by by left. destruct (body' a s); cbn; [|done].
  apply IH. intros a' t Hin. apply Hext. by right.
Qed.

Lemma same_tree_not_dir n n' :
  (∀ perm mtime l, n ≠ os.Dir perm mtime (OK l)) →
  same_tree n n' → n = n'.
Proof.
  intros Hn Hs. destruct n as [| perm mtime [l|e] | |]; try exact Hs.
  by destruct (Hn perm mtime l).
Qed.

(** A walk gives the same result on two trees that show the same files,
    when [walkFn] does not look at the listing of a directory. *)
Lemma walk_same {S} (walkFn : string → result os.FileInfo → S → result S) :
  (∀ path perm mtime l l' s,
     walkFn path (OK (os.info path (os.Dir perm mtime (OK l)))) s
     = walkFn path (OK (os.info path (os.Dir perm mtime (OK l')))) s) →
  ∀ n n' path s,
    same_tree n n' →
    filepath.walk walkFn path n s = filepath.walk walkFn path n' s.
Proof.
  intros Hf.
  induction n as [perm mtime content oe | perm mtime e | perm mtime l IH
                 | perm mtime target | k perm mtime] using node_induction;
    intros n' path s Hsame;
    try (apply same_tree_not_dir in Hsame as <-; done).
  destruct n' as [| perm' mtime' [l'|e'] | |]; try discriminate Hsame.
  destruct Hsame as (<- & <- & Hsort & Hall).
  cbn [filepath.walk]. rewrite (Hf path perm mtime l l' s), Hsort.
  destruct (walkFn path (OK (os.info path (os.Dir perm mtime (OK l')))) s)
    as [s1|e]; cbn [rbind]; [|done].
  apply range_ext. intros name t Hin.
  rewrite <- Hsort in Hin. apply In_Strings in Hin.
  pose proof (all_names_In _ _ _ Hall Hin) as Hrel. cbn beta in Hrel.
  rewrite !lstat_find. rewrite (lstat_find (R:=Prop)) in Hrel.
  destruct (find_name name l) as [[c|e]|] eqn:Hl;
    destruct (find_name name l') as [[c'|e']|] eqn:Hl';
    rewrite ?lstat_find, ?Hl' in Hrel; try done; try by rewrite Hrel.
  apply find_name_In in Hl. rewrite Forall_forall in IH.
  specialize (IH _ ltac:(apply list_elem_of_In; exact Hl)). cbn in IH.
  by apply IH.
Qed.

Lemma tarwalk_same fs fs' source tw :
  same_outcome (fs source) (fs' source) →
  tarwalk fs source tw = tarwalk fs' source tw.
Proof.
  unfold same_outcome, tarwalk, os.Stat, filepath.Walk.
  destruct (fs source) as [n|e], (fs' source) as [n'|e']; try done;
    [|by intros ->].
  intros Hsame.
  destruct n as [perm mtime content oe | perm mtime [l|e] | perm mtime target
                | k perm mtime];
    try (apply same_tree_not_dir in Hsame as <-; done).
  destruct n' as [| perm' mtime' [l'|e'] | |]; try discriminate Hsame.
  pose proof Hsame as (<- & <- & _).
  cbn [os.follow rbind os.IsDir os.info os.Mode os.mode_of os.ModeIsDir
         os.Type_].
  by apply walk_same.
Qed.

Lemma leb_trans a b c :
  String.leb a b = true → String.leb b c = true → String.leb a c = true.
Proof.
  intros Hab%Is_true_true Hbc%Is_true_true. apply Is_true_true.
  exact (@transitivity _ String.le _ a b c Hab Hbc).
Qed.

Lemma leb_false_le a b : String.leb a b = false → String.leb b a = true.
Proof. destruct (String.leb_total a b) as [H|H]; congruence. Qed.

Lemma insert_comm x y l :
  sort.insert x (sort.insert y l) = sort.insert y (sort.insert x l).
Proof.
  induction l as [|z l IH]; cbn.
  - destruct (String.leb x y) eqn:Hxy, (String.leb y x) eqn:Hyx; try done.
    + by rewrite (String.leb_antisym _ _ Hxy Hyx).
    + apply leb_false_le in Hxy. congruence.
  - destruct (String.leb y z) eqn:Hyz, (String.leb x z) eqn:Hxz; cbn;
      rewrite ?Hyz, ?Hxz.
    + destruct (String.leb x y) eqn:Hxy, (String.leb y x) eqn:Hyx; try done.
      * by rewrite (String.leb_antisym _ _ Hxy Hyx).
      * apply leb_false_le in Hxy. congruence.
    + destruct (String.leb x y) eqn:Hxy; [|done].
      by rewrite (leb_trans _ _ _ Hxy Hyz) in Hxz.
    + destruct (String.leb y x) eqn:Hyx; [|done].
      by rewrite (leb_trans _ _ _ Hyx Hxz) in Hyz.
    + by rewrite IH.
Qed.

(** [sort.Strings] gives the same list for the same names in any order. *)
Lemma Strings_Permutation l l' :
  Permutation l l' → sort.Strings l = sort.Strings l'.
Proof.
  unfold sort.Strings.
  induction 1 as [|x l l' _ IH|x y l|l l' l'' _ IH1 _ IH2]; cbn [fold_right].
  - done.
  - by rewrite IH.
  - apply insert_comm.
  - by rewrite IH1.
Qed.

Lemma find_name_Permutation name l l' :
  List.NoDup (map fst l) → Permutation l l' →
  find_name name l = find_name name l'.
Proof.
  intros Hnd Hperm. revert Hnd.
  induction Hperm as [|[k r] l l' Hp IH|[k1 r1] [k2 r2] l
                     |l l' l'' Hp1 IH1 Hp2 IH2]; intros Hnd; cbn.
  - done.
  - inversion Hnd; subst. by rewrite IH.
  - destruct (String.eqb_spec k1 name) as [->|_],
             (String.eqb_spec k2 name) as [->|_]; try done.
    inversion Hnd as [|? ? Hnot _]; subst. destruct Hnot. by left.
  - rewrite IH1 by done. apply IH2.
    eapply Permutation_NoDup; [|exact Hnd]. by apply Permutation_map.
Qed.

Lemma all_names_intro (P : string → Prop) names :
  (∀ name, In name names → P name) → all_names P names.
Proof.
  induction names as [|x names IH]; cbn; [done|]. intros H.
  split; [apply H; by left|]. apply IH. intros name Hin. apply H. by right.
Qed.

Lemma same_tree_refl n : same_tree n n.
Proof.
  induction n as [| | perm mtime l IH | |] using node_induction; try done.
  cbn. repeat split. apply all_names_intro. intros name _.
  rewrite (lstat_find (R:=Prop)).
  destruct (find_name name l) as [[c|e]|] eqn:Hl;
    rewrite (lstat_find (R:=Prop)), Hl; try done.
  apply find_name_In in Hl. rewrite Forall_forall in IH.
  by specialize (IH _ ltac:(apply list_elem_of_In; exact Hl)).
Qed.

(** Two listings of a directory that hold the same entries in different
    orders show the same files. *)
Lemma permuted_listing_same_tree perm mtime l l' :
  List.NoDup (map fst l) → Permutation l l' →
  same_tree (os.Dir perm mtime (OK l)) (os.Dir perm mtime (OK l')).
Proof.
  intros Hnd Hperm. cbn. repeat split.
  - apply Strings_Permutation. by apply Permutation_map.
  - apply all_names_intro. intros name _.
    rewrite (lstat_find (R:=Prop)).
    destruct (find_name name l) as [[c|e]|] eqn:Hl;
      rewrite (lstat_find (R:=Prop)),
        <- (find_name_Permutation name l l' Hnd Hperm), Hl; try done.
    apply same_tree_refl.
Qed.

(** C9: the archive is determined by the paths, in their order, and by the
    files that the file system shows: two runs on the same paths that see
    the same files, whatever the order in which the system lists each
    directory, produce the same sequence of entries, names and content. *)
Theorem createTarFile_deterministic fs fs' paths :
  (∀ p, In p paths → same_outcome (fs p) (fs' p)) →
  createTarFile fs paths [] = createTarFile fs' paths [].
Proof.
  intros Hsame.
  unfold createTarFile. f_equal.
  apply range_ext. intros p tw Hin. by apply tarwalk_same, Hsame.
Qed.

Lemma createTarFile_deterministic_witness :
  (∀ p, In p ["site"] → same_outcome (site_fs p) (site_fs' p)) ∧
  createTarFile site_fs ["site"] [] = createTarFile site_fs' ["site"] [] ∧
  map entry_name
    (match createTarFile site_fs ["site"] [] with
     | OK out => out
     | Err _ => []
     end)
  = ["site"; "site/app"; "site/css"; "site/css/a.css"; "site/css/b.css";
     "site/index.html"].
Proof.
  assert (H : ∀ p, In p ["site"] → same_outcome (site_fs p) (site_fs' p)).
  { intros p [<-|[]]. vm_compute. repeat split. }
  split; [exact H|]. split; [|reflexivity].
  apply (createTarFile_deterministic site_fs site_fs' ["site"] H).
Defined.

(** * Further properties of the archiver *)

Lemma entry_of_well_formed source baseDir path n e :
  entry_of source baseDir path n = OK e → well_formed e.
Proof.
  unfold entry_of. intros (h & Hh & [= <-])%rbind_ok.
  unfold well_formed. cbn [tar.hdr tar.body]. rewrite Size_renamed.
  assert (Htf : tar.Typeflag_ (renamed source baseDir path h)
                = tar.Typeflag_ h).
  { unfold renamed. by destruct (negb (String.eqb baseDir EmptyString)). }
  rewrite Htf.
  destruct n as [perm mtime content oe| | |k]; cbn in Hh |- *.
  - injection Hh as <-. by split.
  - injection Hh as <-. by split.
  - injection Hh as <-. by split.
  - destruct k; try discriminate; injection Hh as <-; by split.
Qed.

Lemma member_of_well_formed source baseDir path n e :
  member_of source baseDir path n = OK e → well_formed e.
Proof.
  destruct n as [perm mtime content [oe|]| | |]; cbn [member_of];
    try discriminate; apply entry_of_well_formed.
Qed.

(** One call of the function literal of [tarwalk] on a writer that is ready
    for a new member: the member of the node is added, or the call fails
    with the error of that node. *)
Lemma tarwalk_func_member source baseDir path n tw :
  tar.remaining tw ≤ 0 →
  tarwalk_func source baseDir path (OK (os.info path n)) tw
  = (e ←? member_of source baseDir path n; OK (e :: tw))%result.
Proof.
  intros Hrem.
  destruct (readable n) eqn:Hread.
  - rewrite tarwalk_func_run by done.
    by destruct n as [perm mtime content [oe|]| | |].
  - destruct n as [perm mtime content [oe|]| | |]; try discriminate.
    unfold tarwalk_func, tar.WriteHeader. cbn [rbind].
    cbn [tar.FileInfoHeader os.info os.Mode os.mode_of os.Type_ rbind].
    by destruct (Z.ltb_spec 0 (tar.remaining tw)); [lia|].
Qed.

Lemma gather_Forall {A B} (P : B → Prop) (f : A → result (list B)) l xs :
  (∀ a x, In a l → f a = OK x → Forall P x) →
  gather f l = OK xs → Forall P xs.
Proof.
  revert xs. induction l as [|a l IH]; intros xs Hf; cbn.
  - by intros [= <-].
  - intros (x & Hx & (ys & Hys & [= <-])%rbind_ok)%rbind_ok.
    apply Forall_app. split; [by eapply Hf; [left|]|].
    apply IH; [|done]. intros a' x' Hin. apply Hf. by right.
Qed.

(** Every member that the walk of a tree writes is well formed. *)
Lemma members_well_formed source baseDir n :
  ∀ path es, members source baseDir path n = OK es → Forall well_formed es.
Proof.
  induction n as [perm mtime content oe | perm mtime e | perm mtime l IH
                 | perm mtime target | k perm mtime] using node_induction;
    intros path es; cbn [members]; try discriminate;
    try (intros (e & He & [= <-])%rbind_ok; constructor; [|done];
         by eapply member_of_well_formed).
  intros (e & He & (below & Hbelow & [= <-])%rbind_ok)%rbind_ok.
  constructor; [by eapply entry_of_well_formed|].
  revert Hbelow. apply gather_Forall. intros name x _.
  rewrite lstat_find.
  destruct (find_name name l) as [[c|e']|] eqn:Hl; try discriminate.
  apply find_name_In in Hl. rewrite Forall_forall in IH.
  specialize (IH _ ltac:(apply list_elem_of_In; exact Hl)). cbn in IH.
  apply IH.
Qed.

Lemma remaining_after es tw :
  Forall well_formed es → tar.remaining tw ≤ 0 →
  tar.remaining (rev es ++ tw) ≤ 0.
Proof.
  intros Hes Htw. destruct (rev es) as [|e l] eqn:Hrev; [done|].
  cbn. assert (Hin : In e es).
  { apply in_rev. rewrite Hrev. by left. }
  rewrite Forall_forall in Hes. apply list_elem_of_In, Hes in Hin as [-> _].
  lia.
Qed.

Lemma range_gather (body : string → tar.Writer → result tar.Writer)
  (g : string → result (list tar.entry)) l :
  (∀ a s, In a l → tar.remaining s ≤ 0 →
     body a s = (es ←? g a; OK (rev es ++ s))%result) →
  (∀ a es, In a l → g a = OK es → Forall well_formed es) →
  ∀ s, tar.remaining s ≤ 0 →
    range body l s = (es ←? gather g l; OK (rev es ++ s))%result.
Proof.
  induction l as [|a l IH]; intros Hbody Hwf s Hs; cbn [range gather rbind];
    [done|].
  rewrite Hbody by (done || by left).
  destruct (g a) as [es1|e] eqn:Hga; cbn [rbind]; [|done].
  rewrite IH.
  - destruct (gather g l) as [es2|e]; cbn [rbind]; [|done].
    by rewrite rev_app_distr, <- app_assoc.
  - intros a' s' Hin. apply Hbody. by right.
  - intros a' es' Hin. apply Hwf. by right.
  - apply remaining_after; [|done]. eapply Hwf; [by left|done].
Qed.

(** The walk of [tarwalk] adds to the writer the members of the tree, or
    fails with the first error met. *)
Lemma walk_members source baseDir n :
  ∀ path tw, tar.remaining tw ≤ 0 →
    filepath.walk (tarwalk_func source baseDir) path n tw
    = (es ←? members source baseDir path n; OK (rev es ++ tw))%result.
Proof.
  induction n as [perm mtime content oe | perm mtime e | perm mtime l IH
                 | perm mtime target | k perm mtime] using node_induction;
    intros path tw Hrem; cbn [filepath.walk members]; try done;
    try (rewrite tarwalk_func_member by done;
         by destruct (member_of source baseDir path _)).
  rewrite tarwalk_func_member by done. cbn [member_of].
  destruct (entry_of source baseDir path (os.Dir perm mtime (OK l)))
    as [e|err] eqn:He; cbn [rbind]; [|done].
  assert (Hwf : well_formed e) by by eapply entry_of_well_formed.
  assert (Hrem1 : tar.remaining (e :: tw) ≤ 0).
  { cbn. destruct Hwf as [-> _]. lia. }
  rewrite (range_gather _
             (fun name =>
                filepath.lstat name
                  (fun child =>
                     members source baseDir (filepath.Join path name) child)
                  (fun e => Err e) l)).
  - destruct (gather _ _) as [below|err]; cbn [rbind]; [|done].
    cbn [rev]. by rewrite <- app_assoc.
  - intros name s Hin Hs. rewrite !lstat_find.
    destruct (find_name name l) as [[c|e']|] eqn:Hl; try done.
    apply find_name_In in Hl. rewrite Forall_forall in IH.
    specialize (IH _ ltac:(apply list_elem_of_In; exact Hl)). cbn in IH.
    by apply IH.
  - intros name es _. rewrite lstat_find.
    destruct (find_name name l) as [[c|e']|] eqn:Hl; try discriminate.
    apply members_well_formed.
  - done.
Qed.

(** The members that [tarwalk] adds for a source. *)
Lemma tarwalk_members fs source tw :
  tar.remaining tw ≤ 0 →
  tarwalk fs source tw
  = (info ←? os.Stat fs source;
     n ←? fs source;
     es ←? members source (baseDir_of fs source) source n;
     OK (rev es ++ tw))%result.
Proof.
  intros Hrem. unfold tarwalk, baseDir_of, filepath.Walk.
  destruct (os.Stat fs source) as [info|e] eqn:Hstat; cbn [rbind]; [|done].
  destruct (fs source) as [n|e] eqn:Hn; cbn [rbind]; [|done].
  by apply walk_members.
Qed.

Lemma gather_app {A B} (f : A → result (list B)) l1 l2 :
  gather f (l1 ++ l2)
  = (x ←? gather f l1; y ←? gather f l2; OK (x ++ y))%result.
Proof.
  induction l1 as [|a l1 IH]; cbn [app gather rbind].
  - by destruct (gather f l2).
  - destruct (f a) as [x|e]; cbn [rbind]; [|done]. rewrite IH.
    destruct (gather f l1) as [xs|e]; cbn [rbind]; [|done].
    destruct (gather f l2) as [ys|e]; cbn [rbind]; [|done].
    by rewrite app_assoc.
Qed.

Lemma source_members_well_formed fs p es :
  source_members fs p = OK es → Forall well_formed es.
Proof.
  unfold source_members.
  intros (info & _ & (n & _ & H)%rbind_ok)%rbind_ok.
  by eapply members_well_formed.
Qed.

(** [createTarFile] on an empty buffer: the members of the sources, one
    source after the other. *)
Lemma createTarFile_members fs paths :
  createTarFile fs paths [] = gather (source_members fs) paths.
Proof.
  unfold createTarFile. cbn [tar.NewWriter rev].
  rewrite (range_gather _ (source_members fs)).
  - destruct (gather (source_members fs) paths) as [es|e]; cbn [rbind];
      [|done].
    unfold tar.Entries. by rewrite app_nil_r, rev_involutive.
  - intros p s _ Hs. rewrite tarwalk_members by done. unfold source_members.
    destruct (os.Stat fs p); cbn [rbind]; [|done].
    by destruct (fs p).
  - intros p es _. apply source_members_well_formed.
  - done.
Qed.

(** X1: archiving two lists of paths one after the other is archiving them
    apart and putting the second archive after the first; the error of the
    first list comes first. *)
Theorem createTarFile_app fs paths1 paths2 :
  createTarFile fs (paths1 ++ paths2) []
  = (a1 ←? createTarFile fs paths1 [];
     a2 ←? createTarFile fs paths2 [];
     OK (a1 ++ a2))%result.
Proof. rewrite !createTarFile_members. apply gather_app. Qed.

(** X2: in an archive that [createTarFile] returns, the size in every
    header is the number of bytes that follow it, and only the members of
    regular files have bytes. *)
Theorem createTarFile_well_formed fs paths out :
  createTarFile fs paths [] = OK out → Forall well_formed out.
Proof.
  rewrite createTarFile_members. apply gather_Forall.
  intros p es _. apply source_members_well_formed.
Qed.

Lemma createTarFile_well_formed_witness :
  Forall well_formed
    [tar.mkEntry (tar.mkHeader tar.TypeReg "app" EmptyString 2 493 6)
       [Byte.x7f; Byte.x45]].
Proof.
  apply (createTarFile_well_formed flat_fs ["app"]). reflexivity.
Defined.

Lemma is_ok_gather {A B} (f : A → result (list B)) l :
  is_ok (gather f l) = forallb (fun a => is_ok (f a)) l.
Proof.
  induction l as [|a l IH]; cbn [gather forallb]; [done|].
  destruct (f a) as [x|e]; cbn [rbind is_ok andb]; [|done].
  rewrite <- IH. by destruct (gather f l).
Qed.

Lemma forallb_insert (g : string → bool) x l :
  forallb g (sort.insert x l) = g x && forallb g l.
Proof.
  induction l as [|y l IH]; cbn [sort.insert forallb]; [done|].
  destruct (String.leb x y); cbn [forallb]; [done|].
  rewrite IH. by destruct (g x), (g y).
Qed.

Lemma forallb_Strings (g : string → bool) l :
  forallb g (sort.Strings l) = forallb g l.
Proof.
  unfold sort.Strings.
  induction l as [|x l IH]; cbn [fold_right forallb]; [done|].
  by rewrite forallb_insert, IH.
Qed.

Lemma forallb_ext_In {A} (f g : A → bool) l :
  (∀ a, In a l → f a = g a) → forallb f l = forallb g l.
Proof.
  induction l as [|a l IH]; intros H; cbn [forallb]; [done|].
  rewrite (H a) by by left. f_equal. apply IH. intros a' Hin. apply H.
  by right.
Qed.

Lemma is_ok_rbind_OK {A B} (r : result A) (f : A → B) :
  is_ok (x ←? r; OK (f x))%result = is_ok r.
Proof. by destruct r. Qed.

(** The walk of a tree succeeds exactly on the trees that can be
    written. *)
Lemma is_ok_members source baseDir n :
  ∀ path, is_ok (members source baseDir path n) = archivable n.
Proof.
  induction n as [perm mtime content oe | perm mtime e | perm mtime l IH
                 | perm mtime target | k perm mtime] using node_induction;
    intros path; cbn [members archivable]; try done.
  - by destruct oe.
  - cbn [entry_of tar.FileInfoHeader os.info os.Mode os.mode_of os.Type_
           rbind].
    rewrite is_ok_rbind_OK, is_ok_gather, forallb_Strings.
    apply forallb_ext_In. intros name _.
    rewrite !lstat_find.
    destruct (find_name name l) as [[c|e']|] eqn:Hl; try done.
    apply find_name_In in Hl. rewrite Forall_forall in IH.
    specialize (IH _ ltac:(apply list_elem_of_In; exact Hl)). cbn in IH.
    by rewrite IH.
  - by destruct k.
Qed.

(** X3: [createTarFile] succeeds exactly when every source can be written:
    [os.Stat] succeeds on it, every regular file below it can be read,
    every directory can be listed with [Lstat] succeeding on its names, and
    there is no socket or file of unknown type.  One node that cannot be
    written makes the whole operation fail. *)
Theorem createTarFile_succeeds_iff fs paths :
  is_ok (createTarFile fs paths []) = forallb (source_archivable fs) paths.
Proof.
  rewrite createTarFile_members, is_ok_gather.
  apply forallb_ext_In. intros p _.
  unfold source_members, source_archivable.
  destruct (os.Stat fs p) as [info|e]; cbn [rbind]; [|done].
  destruct (fs p) as [n|e]; cbn [rbind]; [|done].
  apply is_ok_members.
Qed.

(** X4: the error of the first source that fails is what [createTarFile]
    returns, as it is; the sources after it are not looked at.  A source
    that does not exist fails with the error of [os.Stat]. *)
Theorem createTarFile_first_error fs before p after a e :
  createTarFile fs before [] = OK a →
  tarwalk fs p (tar.NewWriter []) = Err e →
  createTarFile fs (before ++ p :: after) [] = Err e ∧
  (∀ e', fs p = Err e' → e = e').
Proof.
  intros Hbefore Hp. split.
  - rewrite createTarFile_app, Hbefore. cbn [rbind].
    change (p :: after) with ([p] ++ after).
    rewrite createTarFile_app.
    assert (createTarFile fs [p] [] = Err e) as ->; [|done].
    unfold createTarFile. cbn [range rbind]. by rewrite Hp.
  - intros e' He'. unfold tarwalk, os.Stat in Hp. rewrite He' in Hp.
    cbn in Hp. congruence.
Qed.

Lemma createTarFile_first_error_witness :
  createTarFile flat_fs (["app"] ++ "secret" :: ["missing"]) []
    = Err (errors.New "open secret: permission denied") ∧
  (∀ e', flat_fs "secret" = Err e' →
         errors.New "open secret: permission denied" = e').
Proof.
  apply (createTarFile_first_error flat_fs ["app"] "secret" ["missing"]
           [tar.mkEntry (tar.mkHeader tar.TypeReg "app" EmptyString 2 493 6)
              [Byte.x7f; Byte.x45]]); reflexivity.
Defined.

Lemma Base_nonempty path : filepath.Base path ≠ EmptyString.
Proof.
  unfold filepath.Base. destruct (String.eqb path EmptyString); [done|].
  destruct (last (elements path)) as [c|] eqn:Hl; [|done].
  apply last_Some in Hl as (l' & Hl). intros ->.
  assert (Hin : In EmptyString (elements path)).
  { rewrite Hl. apply in_or_app. right. by left. }
  unfold elements in Hin. apply filter_In in Hin as [_ Hne]. done.
Qed.

Lemma TrimPrefix_self s : strings.TrimPrefix s s = EmptyString.
Proof.
  pose proof (TrimPrefix_append s EmptyString) as H.
  by rewrite append_nil_r in H.
Qed.

(** X5: a source that is a directory gets its own member first, before
    anything that it holds: a header of type directory and no content,
    named by the base name of the source, with the permission bits and the
    modification time of the directory. *)
Theorem directory_member_first fs source perm mtime l out :
  fs source = OK (os.Dir perm mtime (OK l)) →
  createTarFile fs [source] [] = OK out →
  ∃ rest,
    out = tar.mkEntry
            (tar.mkHeader tar.TypeDir
               (filepath.Join (filepath.Base source) EmptyString)
               EmptyString 0 perm mtime) [] :: rest.
Proof.
  intros Hn. rewrite createTarFile_members. cbn [gather].
  unfold source_members, baseDir_of, os.Stat. rewrite Hn.
  cbn [rbind os.follow os.IsDir os.info os.Mode os.mode_of os.ModeIsDir
         os.Type_ members].
  unfold entry_of.
  cbn [tar.FileInfoHeader os.info os.Mode os.mode_of os.Type_ rbind
         content_of os.Perm os.ModTime os.mtime_of].
  unfold renamed.
  destruct (String.eqb_spec (filepath.Base source) EmptyString) as [H|_];
    [by apply Base_nonempty in H|].
  cbn [negb tar.set_Name tar.Typeflag_ tar.Linkname tar.Size tar.Mode
         tar.ModTime].
  unfold filepath.ToSlash. rewrite TrimPrefix_self.
  destruct (gather _ _) as [below|e]; cbn [rbind]; [|discriminate].
  intros [= <-]. rewrite app_nil_r. eauto.
Qed.

Lemma directory_member_first_witness :
  ∃ rest,
    match createTarFile flat_fs ["/srv/www"] [] with
    | OK out => out
    | Err _ => []
    end
    = tar.mkEntry
        (tar.mkHeader tar.TypeDir
           (filepath.Join (filepath.Base "/srv/www") EmptyString)
           EmptyString 0 493 1) [] :: rest.
Proof.
  apply (directory_member_first flat_fs "/srv/www" 493 1
           [("c.js", OK (os.File 420 2 [Byte.x63] None));
            ("a.html", OK (os.File 420 3 [Byte.x61] None));
            ("b.css", OK (os.File 420 4 [Byte.x62] None))]);
    reflexivity.
Defined.

Lemma find_name_Some name l :
  In name (map fst l) → ∃ r, find_name name l = Some r.
Proof.
  induction l as [|[k r] l IH]; cbn; [done|].
  destruct (String.eqb_spec k name) as [->|Hne]; [eauto|].
  intros [H|H]; [done|by apply IH].
Qed.

Lemma gather_names {A} (g : A → result (list tar.entry)) (h : A → string) l :
  (∀ a, In a l → ∃ e, g a = OK [e] ∧ entry_name e = h a) →
  ∃ es, gather g l = OK es ∧ map entry_name es = map h l.
Proof.
  induction l as [|a l IH]; intros H; cbn [gather map]; [by exists []|].
  destruct (H a ltac:(by left)) as (e & -> & He).
  destruct IH as (es & -> & Hes); [intros a' Hin; apply H; by right|].
  exists (e :: es). cbn. by rewrite He, Hes.
Qed.

(** The names in the archive of a directory of readable regular files. *)
Lemma flat_directory_names fs source perm mtime l :
  plain_path source = true → flat_files l = true →
  fs source = OK (os.Dir perm mtime (OK l)) →
  names_of (createTarFile fs [source] [])
  = filepath.Base source
    :: map (fun name => filepath.Base source +:+ "/" +:+ name)
         (sort.Strings (map fst l)).
Proof.
  intros (rooted & c & cs & Hc & Hcs & Hsrc)%plain_path_inv Hflat Hn.
  pose proof (Base_mk_path rooted c cs Hc Hcs) as HBase.
  pose proof (plain_last c cs Hc Hcs) as Hb.
  rewrite <- Hsrc in HBase. rewrite <- HBase in Hb.
  assert (Hb0 : String.eqb (filepath.Base source) EmptyString = false).
  { apply String.eqb_neq. by apply plain_nonempty. }
  rewrite createTarFile_members. cbn [gather].
  unfold source_members, baseDir_of, os.Stat. rewrite Hn.
  cbn [rbind os.follow os.IsDir os.info os.Mode os.mode_of os.ModeIsDir
         os.Type_ members].
  unfold entry_of at 1.
  cbn [tar.FileInfoHeader os.info os.Mode os.mode_of os.Type_ rbind].
  destruct (gather_names
              (fun name =>
                 filepath.lstat name
                   (fun child =>
                      members source (filepath.Base source)
                        (filepath.Join source name) child)
                   (fun e => Err e) l)
              (fun name => filepath.Base source +:+ "/" +:+ name)
              (sort.Strings (map fst l)))
    as (es & -> & Hes).
  { intros name Hin%In_Strings.
    destruct (find_name_Some _ _ Hin) as (r & Hr).
    rewrite lstat_find, Hr. apply find_name_In in Hr.
    unfold flat_files in Hflat. rewrite forallb_forall in Hflat.
    apply Hflat in Hr. cbn [fst snd] in Hr.
    apply andb_true_iff in Hr as [Hname Hr].
    destruct r as [[fperm fmtime content [oe|]| | |]|]; try discriminate.
    cbn [members member_of]. unfold entry_of.
    cbn [tar.FileInfoHeader os.info os.Mode os.mode_of os.Type_ rbind].
    eexists. split; [done|].
    unfold entry_name, renamed, filepath.ToSlash. rewrite Hb0.
    cbn [negb tar.hdr tar.set_Name tar.Name].
    assert (filepath.Join source name = source +:+ below [name]) as ->.
    { rewrite Hsrc, mk_path_below. by apply Join_mk_path. }
    rewrite TrimPrefix_append, Join_base_below by (done || by constructor).
    cbn [below]. by rewrite append_nil_r. }
  cbn [rbind names_of app map]. rewrite app_nil_r, Hes. f_equal.
  unfold entry_name, renamed, filepath.ToSlash. rewrite Hb0.
  cbn [negb tar.hdr tar.set_Name tar.Name].
  rewrite TrimPrefix_self.
  change (filepath.Join (filepath.Base source) EmptyString)
    with (filepath.Join (filepath.Base source) (below [])).
  rewrite Join_base_below by done. cbn [below]. by rewrite append_nil_r.
Qed.

Lemma insert_increasing x l :
  increasing l = true → increasing (sort.insert x l) = true.
Proof.
  induction l as [|y l IH]; [done|].
  intros Hl. cbn [sort.insert].
  destruct (String.leb x y) eqn:Hxy.
  - cbn [increasing]. rewrite Hxy. exact Hl.
  - apply leb_false_le in Hxy.
    destruct l as [|z l].
    + cbn [sort.insert increasing]. by rewrite Hxy.
    + cbn [increasing] in Hl. apply andb_true_iff in Hl as [Hyz Hl].
      specialize (IH Hl). cbn [sort.insert] in IH |- *.
      destruct (String.leb x z) eqn:Hxz.
      * cbn [increasing] in IH |- *. by rewrite Hxy, IH.
      * cbn [increasing] in IH |- *. by rewrite Hyz, IH.
Qed.

Lemma Strings_increasing l : increasing (sort.Strings l) = true.
Proof.
  induction l as [|x l IH]; [done|].
  cbn [sort.Strings fold_right]. by apply insert_increasing.
Qed.

Lemma insert_Permutation x l : Permutation (sort.insert x l) (x :: l).
Proof.
  induction l as [|y l IH]; [done|].
  cbn [sort.insert]. destruct (String.leb x y); [done|].
  rewrite IH. apply perm_swap.
Qed.

Lemma Strings_same_names l : Permutation (sort.Strings l) l.
Proof.
  induction l as [|x l IH]; [done|].
  cbn [sort.Strings fold_right]. rewrite insert_Permutation.
  by apply perm_skip.
Qed.

(** X6: for a directory of readable regular files, given by a path of plain
    names, the archive holds the directory under the base name of the
    source and then one member for each file, named by the base name, a
    slash and the file name; the file names are those of the listing, each
    as often as listed, in increasing byte-wise order whatever the order of
    the listing. *)
Theorem flat_directory_sorted fs source perm mtime l :
  plain_path source = true → flat_files l = true →
  fs source = OK (os.Dir perm mtime (OK l)) →
  ∃ ns,
    names_of (createTarFile fs [source] [])
    = filepath.Base source
      :: map (fun name => filepath.Base source +:+ "/" +:+ name) ns ∧
    Permutation ns (map fst l) ∧
    increasing ns = true.
Proof.
  intros Hsrc Hflat Hn.
  exists (sort.Strings (map fst l)). split; [|split].
  - by apply (flat_directory_names fs source perm mtime l).
  - apply Strings_same_names.
  - apply Strings_increasing.
Qed.

Lemma flat_directory_sorted_witness :
  ∃ ns,
    names_of (createTarFile flat_fs ["/srv/www"] [])
    = filepath.Base "/srv/www"
      :: map (fun name => filepath.Base "/srv/www" +:+ "/" +:+ name) ns ∧
    Permutation ns
      (map fst
         [("c.js", OK (os.File 420 2 [Byte.x63] None));
          ("a.html", OK (os.File 420 3 [Byte.x61] None));
          ("b.css", OK (os.File 420 4 [Byte.x62] None))]) ∧
    increasing ns = true.
Proof.
  apply (flat_directory_sorted flat_fs "/srv/www" 493 1); reflexivity.
Defined.

(** * Further properties of the image functions *)



(** X8: [buildNewImage] succeeds exactly when the config file of the base
    image can be retrieved, its manifest can be retrieved and the archive
    of the files can be made. *)
Theorem buildNewImage_succeeds_iff paths env cmd base w :
  is_ok (fst (buildNewImage paths env cmd base w))
  = is_ok (config_of base w) && is_ok (fst (Image_Manifest base w))
    && is_ok (createTarFile (files w) paths []).
Proof.
  unfold buildNewImage, applyConfig, addNewLayerFromFiles; unfold_M.
  destruct base as [m [cf|e] ls | m p ls]; heap_simpl.
  - destruct m as [m|e]; heap_simpl; [|done].
    destruct (createTarFile (files w) paths []) as [bb|e]; heap_simpl; done.
  - done.
  - destruct (heap w !! p) as [cf0|] eqn:Hp; heap_simpl; [|done].
    do 4 (rewrite (lookup_update _ _ _ _ Hp); heap_simpl).
    destruct (createTarFile (files w) paths []) as [bb|e]; heap_simpl; done.
Qed.



(** X10: a successful build adds the digest of the new layer at the end of
    the manifest; when the manifest, the diff-ids of the config and the
    layers of the base image were of the same number, so are those of the
    built image, one more each. *)
Theorem buildNewImage_manifest paths env cmd base w img w' :
  buildNewImage paths env cmd base w = (OK img, w') →
  ∃ bb m m' cf0 cf,
    createTarFile (files w) paths [] = OK bb ∧
    Image_Manifest base w = (OK m, w) ∧
    Image_Manifest img w' = (OK m', w') ∧
    v1.Layers m' = v1.Layers m ++ [v1.Digest (v1.TarballLayer bb)] ∧
    config_of base w = OK cf0 ∧ config_of img w' = OK cf ∧
    (length (v1.Layers m) = length (v1.DiffIDs cf0) →
     length (v1.DiffIDs cf0) = length (Image_Layers base) →
     length (v1.Layers m') = S (length (v1.Layers m)) ∧
     length (v1.Layers m') = length (v1.DiffIDs cf) ∧
     length (v1.DiffIDs cf) = length (Image_Layers img)).
Proof.
  intros H.
  destruct (buildNewImage_ok _ _ _ _ _ _ _ H)
    as (img1 & w1 & bb & cf0 & m & p & _ & _ & Htar & Hcf0 & Hm & -> & _ & Hcf).
  eexists bb, m, _, cf0, _. repeat split; try done.
  - cbn. rewrite length_app. cbn. lia.
  - cbn. rewrite !length_app. cbn. lia.
  - cbn. rewrite !length_app. cbn. lia.
Qed.

Lemma buildNewImage_manifest_witness :
  ∃ bb m m' cf0 cf,
    createTarFile (files example_world) ["app"] [] = OK bb ∧
    Image_Manifest example_remote example_world = (OK m, example_world) ∧
    Image_Manifest
      (image_of (buildNewImage ["app"] [] "/app" example_remote example_world))
      (snd (buildNewImage ["app"] [] "/app" example_remote example_world))
      = (OK m', snd (buildNewImage ["app"] [] "/app" example_remote
                       example_world)) ∧
    v1.Layers m' = v1.Layers m ++ [v1.Digest (v1.TarballLayer bb)] ∧
    config_of example_remote example_world = OK cf0 ∧
    config_of
      (image_of (buildNewImage ["app"] [] "/app" example_remote example_world))
      (snd (buildNewImage ["app"] [] "/app" example_remote example_world))
      = OK cf ∧
    (length (v1.Layers m) = length (v1.DiffIDs cf0) →
     length (v1.DiffIDs cf0) = length (Image_Layers example_remote) →
     length (v1.Layers m') = S (length (v1.Layers m)) ∧
     length (v1.Layers m') = length (v1.DiffIDs cf) ∧
     length (v1.DiffIDs cf)
     = length (Image_Layers
                 (image_of (buildNewImage ["app"] [] "/app" example_remote
                              example_world)))).
Proof.
  apply (buildNewImage_manifest ["app"] [] "/app" example_remote
           example_world).
  reflexivity.
Defined.

(** X11: with no files at all the build still adds a layer: for a base
    image whose config file and manifest can be retrieved,
    [buildNewImage] succeeds and the layers of its result are those of the
    base image followed by a layer made of the empty archive. *)
Theorem buildNewImage_no_files env cmd base w cf0 m :
  config_of base w = OK cf0 →
  Image_Manifest base w = (OK m, w) →
  ∃ img w' cf,
    buildNewImage [] env cmd base w = (OK img, w') ∧
    Image_Layers img = Image_Layers base ++ [v1.TarballLayer []] ∧
    config_of img w' = OK cf ∧
    v1.DiffIDs cf = v1.DiffIDs cf0 ++ [v1.SHA256 false []].
Proof.
  intros Hcf0 Hm.
  pose proof (buildNewImage_succeeds_iff [] env cmd base w) as Hok.
  rewrite Hcf0, Hm in Hok. cbn in Hok.
  destruct (buildNewImage [] env cmd base w) as [[img|e] w'] eqn:H;
    [|discriminate].
  destruct (buildNewImage_ok _ _ _ _ _ _ _ H)
    as (i1 & u1 & bb & cf0' & m' & p & _ & _ & Htar & Hcf0' & _ & Himg & _ & Hcf).
  cbn in Htar. injection Htar as Hbb. subst bb.
  rewrite Hcf0 in Hcf0'. injection Hcf0' as Heq. subst cf0'.
  exists img, w', (built_config (clock w) env cmd [] cf0).
  repeat split; try done. by rewrite Himg.
Qed.

Lemma buildNewImage_no_files_witness :
  ∃ img w' cf,
    buildNewImage [] ["B=2"] "/app" example_mutated example_world
      = (OK img, w') ∧
    Image_Layers img = Image_Layers example_mutated ++ [v1.TarballLayer []] ∧
    config_of img w' = OK cf ∧
    v1.DiffIDs cf = v1.DiffIDs example_config ++ [v1.SHA256 false []].
Proof.
  apply (buildNewImage_no_files ["B=2"] "/app" example_mutated example_world
           example_config (v1.mkManifest [v1.Hex "layer-1"]));
    reflexivity.
Defined.

(** X12: a second build on the result of a first one stacks the layers:
    the layers of the base image, the layer of the first build, the layer
    of the second; the diff-ids in the config follow in the same order, and
    the environment and the command are those of the second build. *)
Theorem buildNewImage_twice paths1 env1 cmd1 paths2 env2 cmd2 base w
  img1 w1 img2 w2 :
  buildNewImage paths1 env1 cmd1 base w = (OK img1, w1) →
  buildNewImage paths2 env2 cmd2 img1 w1 = (OK img2, w2) →
  ∃ bb1 bb2 cf0 cf2,
    createTarFile (files w) paths1 [] = OK bb1 ∧
    createTarFile (files w) paths2 [] = OK bb2 ∧
    Image_Layers img2
    = Image_Layers base ++ [v1.TarballLayer bb1; v1.TarballLayer bb2] ∧
    config_of base w = OK cf0 ∧ config_of img2 w2 = OK cf2 ∧
    v1.DiffIDs cf2
    = v1.DiffIDs cf0 ++ [v1.SHA256 false bb1; v1.SHA256 false bb2] ∧
    v1.Env (v1.Config_ cf2) = env2 ∧ v1.Cmd (v1.Config_ cf2) = [cmd2].
Proof.
  intros H1 H2.
  destruct (buildNewImage_ok _ _ _ _ _ _ _ H1)
    as (i1 & u1 & bb1 & cf0 & m & p & Ha1 & Hl1 & Htar1 & Hcf0 & _ & -> & _
        & Hcf1).
  destruct (buildNewImage_ok _ _ _ _ _ _ _ H2)
    as (i2 & u2 & bb2 & cf1 & m' & p' & _ & _ & Htar2 & Hcf1' & _ & -> & _
        & Hcf2).
  rewrite Hcf1 in Hcf1'. injection Hcf1' as <-.
  assert (Hfiles : files w1 = files w).
  { destruct (applyConfig_ok _ _ _ _ _ _ Ha1)
      as (x1 & x2 & x3 & _ & _ & _ & _ & _ & _ & Hf).
    destruct (addNewLayerFromFiles_ok _ _ _ _ _ Hl1)
      as (y1 & y2 & y3 & y4 & _ & _ & _ & _ & _ & _ & _ & Hf').
    congruence. }
  rewrite Hfiles in Htar2.
  exists bb1, bb2, cf0,
    (built_config (clock w1) env2 cmd2 bb2
       (built_config (clock w) env1 cmd1 bb1 cf0)).
  repeat split; try done.
  - cbn. by rewrite <- app_assoc.
  - cbn. by rewrite <- app_assoc.
Qed.

Lemma buildNewImage_twice_witness :
  ∃ bb1 bb2 cf0 cf2,
    createTarFile (files example_world) ["app"] [] = OK bb1 ∧
    createTarFile (files example_world) [] [] = OK bb2 ∧
    Image_Layers
      (image_of
         (buildNewImage [] ["C=3"] "/two"
            (image_of (buildNewImage ["app"] ["B=2"] "/one" example_remote
                         example_world))
            (snd (buildNewImage ["app"] ["B=2"] "/one" example_remote
                    example_world))))
    = Image_Layers example_remote
      ++ [v1.TarballLayer bb1; v1.TarballLayer bb2] ∧
    config_of example_remote example_world = OK cf0 ∧
    config_of
      (image_of
         (buildNewImage [] ["C=3"] "/two"
            (image_of (buildNewImage ["app"] ["B=2"] "/one" example_remote
                         example_world))
            (snd (buildNewImage ["app"] ["B=2"] "/one" example_remote
                    example_world))))
      (snd
         (buildNewImage [] ["C=3"] "/two"
            (image_of (buildNewImage ["app"] ["B=2"] "/one" example_remote
                         example_world))
            (snd (buildNewImage ["app"] ["B=2"] "/one" example_remote
                    example_world))))
      = OK cf2 ∧
    v1.DiffIDs cf2
    = v1.DiffIDs cf0 ++ [v1.SHA256 false bb1; v1.SHA256 false bb2] ∧
    v1.Env (v1.Config_ cf2) = ["C=3"] ∧ v1.Cmd (v1.Config_ cf2) = ["/two"].
Proof.
  apply (buildNewImage_twice ["app"] ["B=2"] "/one" [] ["C=3"] "/two"
           example_remote example_world
           (image_of (buildNewImage ["app"] ["B=2"] "/one" example_remote
                        example_world))
           (snd (buildNewImage ["app"] ["B=2"] "/one" example_remote
                   example_world)));
    reflexivity.
Defined.

Lemma applyConfig_held m p ls env cmd w cf :
  heap w !! p = Some cf →
  applyConfig (v1.MutateImage m p ls) env cmd w
  = (OK (v1.MutateImage m (length (heap w)) ls),
     mkWorld
       (<[p := set_Cmd [cmd] (set_Env env cf)]> (heap w)
        ++ [set_Created (clock w) (set_Cmd [cmd] (set_Env env cf))])
       (clock w) (files w)).
Proof.
  intros Hp. unfold applyConfig; unfold_M. heap_simpl. rewrite Hp. heap_simpl.
  do 4 (rewrite (lookup_update _ _ _ _ Hp); heap_simpl).
  by rewrite length_insert.
Qed.

(** X13: building on an image that a build returned changes that image: after
    the second build, whether it succeeds or fails at the archive, the
    first image reports the environment and the command of the second
    build; the rest of its config is as it was. *)
Theorem rebuild_overwrites_first paths1 env1 cmd1 paths2 env2 cmd2 base w
  img1 w1 r w2 :
  buildNewImage paths1 env1 cmd1 base w = (OK img1, w1) →
  buildNewImage paths2 env2 cmd2 img1 w1 = (r, w2) →
  ∃ cf1,
    config_of img1 w1 = OK cf1 ∧
    v1.Env (v1.Config_ cf1) = env1 ∧ v1.Cmd (v1.Config_ cf1) = [cmd1] ∧
    config_of img1 w2 = OK (set_Cmd [cmd2] (set_Env env2 cf1)).
Proof.
  intros H1 H2.
  destruct (buildNewImage_ok _ _ _ _ _ _ _ H1)
    as (i0 & u0 & bb1 & cf0 & m & p & _ & _ & _ & _ & _ & -> & _ & Hcf1).
  eexists. split; [exact Hcf1|]. split; [done|]. split; [done|].
  cbn in Hcf1.
  destruct (heap w1 !! p) as [cf1|] eqn:Hp; [|discriminate].
  injection Hcf1 as <-.
  unfold buildNewImage in H2.
  apply bind_inv in H2 as [(i1 & u1 & Ha & H2)|(e & Ha & _)];
    apply wrapM_inv in Ha as (ra & Ha & Hra);
    rewrite (applyConfig_held _ _ _ _ _ _ _ Hp) in Ha;
    injection Ha as Hra' Hu; subst ra; cbn in Hra.
  - injection Hra as ->.
    assert (Hq : heap u1 !! p = Some (set_Cmd [cmd2] (set_Env env2 cf1))).
    { rewrite <- Hu. cbn. apply lookup_kept. by eapply lookup_update. }
    apply bind_inv in H2 as [(i2 & u2 & Hl & H2)|(e & Hl & _)];
      apply wrapM_inv in Hl as (rl & Hl & _).
    + injection H2 as _ Hw. subst u2. cbn.
      assert (Hfin : heap w2 !! p
                     = Some (set_Cmd [cmd2] (set_Env env2 cf1)))
        by exact (addNewLayerFromFiles_frame _ _ _ _ _ Hl _ _ Hq).
      by rewrite Hfin.
    + cbn.
      assert (Hfin : heap w2 !! p
                     = Some (set_Cmd [cmd2] (set_Env env2 cf1)))
        by exact (addNewLayerFromFiles_frame _ _ _ _ _ Hl _ _ Hq).
      by rewrite Hfin.
  - discriminate.
Qed.

Lemma rebuild_overwrites_first_witness :
  ∃ cf1,
    config_of
      (image_of (buildNewImage ["app"] ["B=2"] "/one" example_remote
                   example_world))
      (snd (buildNewImage ["app"] ["B=2"] "/one" example_remote
              example_world)) = OK cf1 ∧
    v1.Env (v1.Config_ cf1) = ["B=2"] ∧ v1.Cmd (v1.Config_ cf1) = ["/one"] ∧
    config_of
      (image_of (buildNewImage ["app"] ["B=2"] "/one" example_remote
                   example_world))
      (snd
         (buildNewImage ["missing"] ["C=3"] "/two"
            (image_of (buildNewImage ["app"] ["B=2"] "/one" example_remote
                         example_world))
            (snd (buildNewImage ["app"] ["B=2"] "/one" example_remote
                    example_world))))
      = OK (set_Cmd ["/two"] (set_Env ["C=3"] cf1)).
Proof.
  apply (rebuild_overwrites_first ["app"] ["B=2"] "/one" ["missing"] ["C=3"]
           "/two" example_remote example_world
           (image_of (buildNewImage ["app"] ["B=2"] "/one" example_remote
                        example_world))
           (snd (buildNewImage ["app"] ["B=2"] "/one" example_remote
                   example_world))
           (fst (buildNewImage ["missing"] ["C=3"] "/two"
                   (image_of (buildNewImage ["app"] ["B=2"] "/one"
                                example_remote example_world))
                   (snd (buildNewImage ["app"] ["B=2"] "/one" example_remote
                           example_world)))));
    reflexivity.
Defined.

(** * Properties of fetching, pushing and [run] *)

Lemma pbind_inv {A B} (m : P A) (k : A → P B) pr r pr' :
  pbind m k pr = (r, pr') →
  (∃ a pr1, m pr = (OK a, pr1) ∧ k a pr1 = (r, pr')) ∨
  (∃ e, m pr = (Err e, pr') ∧ r = Err e).
Proof.
  unfold pbind. destruct (m pr) as [[a|e] pr1]; [eauto|].
  intros [= <- <-]. eauto.
Qed.

(** X14: the outcomes of [getImage]: a source URL that does not parse fails
    with the trail "parsing source URL: parsing url (URL): ...", a registry
    without credentials with "authenticating: ...", a failed fetch with
    "fetching: ..."; otherwise the fetched image is returned with the
    repository of the parsed reference. *)
Theorem getImage_outcomes api url :
  (∀ e, api_ParseReference api url = Err e →
     getImage api url
     = Err (errors.Wrap
              (errors.Wrap e ("parsing url (" +:+ url +:+ ")"))
              "parsing source URL")) ∧
  (∀ ref e, api_ParseReference api url = OK ref →
     api_Resolve api (name.Registry (name.Context ref)) = Err e →
     getImage api url = Err (errors.Wrap e "authenticating")) ∧
  (∀ ref auth e, api_ParseReference api url = OK ref →
     api_Resolve api (name.Registry (name.Context ref)) = OK auth →
     api_Image api ref auth = Err e →
     getImage api url = Err (errors.Wrap e "fetching")) ∧
  (∀ ref auth img, api_ParseReference api url = OK ref →
     api_Resolve api (name.Registry (name.Context ref)) = OK auth →
     api_Image api ref auth = OK img →
     getImage api url = OK (img, name.Context ref)).
Proof.
  unfold getImage, parseImageURL, wrapf. repeat split.
  - by intros e ->.
  - intros ref e -> H. cbn. by rewrite H.
  - intros ref auth e -> H1 H2. cbn. rewrite H1. cbn. by rewrite H2.
  - intros ref auth img -> H1 H2. cbn. rewrite H1. cbn. by rewrite H2.
Qed.

Lemma getImage_outcomes_witness :
  errors.Error
    (match getImage example_api "not a reference" with
     | Err e => e
     | OK _ => errors.New EmptyString
     end)
  = "parsing source URL: parsing url (not a reference): could not parse reference" ∧
  getImage example_api "gcr.io/base/alpine"
  = OK (example_remote, name.mkRepository "gcr.io" "base/alpine").
Proof.
  split.
  - rewrite (proj1 (getImage_outcomes example_api "not a reference")
               (errors.New "could not parse reference") eq_refl).
    reflexivity.
  - apply (proj2 (proj2 (proj2 (getImage_outcomes example_api
                                  "gcr.io/base/alpine")))
             (name.mkReference (name.mkRepository "gcr.io" "base/alpine")
                "latest") "token" example_remote);
      reflexivity.
Defined.

(** X15: [pushImage] calls [remote.Write] at most once: not at all when the
    destination URL does not parse or its registry has no credentials, in
    which case the error names the URL; otherwise once, for the parsed
    destination, with the image it was given and with exactly the
    repositories it was given as mount paths, and it returns the error of
    that call as it is.  It prints nothing and leaves the world as it
    was. *)
Theorem pushImage_calls api image repositories destURL pr r pr' :
  pushImage api image repositories destURL pr = (r, pr') →
  world pr' = world pr ∧ stdout pr' = stdout pr ∧
  ((written pr' = written pr ∧
    ((∃ e, api_ParseReference api destURL = Err e ∧
           r = Err (errors.Wrap e
                      ("parsing destination URL (" +:+ destURL +:+ ")"))) ∨
     (∃ destRef e,
        api_ParseReference api destURL = OK destRef ∧
        api_Resolve api (name.Registry (name.Context destRef)) = Err e ∧
        r = Err (errors.Wrap e
                   ("authenticating target (" +:+ destURL +:+ ")"))))) ∨
   (∃ destRef auth,
      api_ParseReference api destURL = OK destRef ∧
      api_Resolve api (name.Registry (name.Context destRef)) = OK auth ∧
      written pr'
      = written pr
        ++ [mkWriteCall destRef image auth
              (remote.mkWriteOptions repositories)] ∧
      r = match api_Write api destRef image auth
                  (remote.mkWriteOptions repositories) (world pr) with
          | None => OK tt
          | Some e => Err e
          end)).
Proof.
  unfold pushImage, pbind, liftR, wrapf, remote_Write.
  destruct (api_ParseReference api destURL) as [destRef|e] eqn:Hparse; cbn.
  - destruct (api_Resolve api (name.Registry (name.Context destRef)))
      as [auth|e] eqn:Hauth; cbn.
    + intros [= <- <-]. cbn. repeat split. right. by exists destRef, auth.
    + intros [= <- <-]. repeat split. left. split; [done|]. right.
      by exists destRef, e.
  - intros [= <- <-]. repeat split. left. split; [done|]. left. by exists e.
Qed.

Lemma pushImage_calls_witness :
  world (snd (pushImage example_api example_remote
                [name.mkRepository "gcr.io" "base/alpine"] "gcr.io/team/app"
                example_proc)) = world example_proc ∧
  written (snd (pushImage example_api example_remote
                  [name.mkRepository "gcr.io" "base/alpine"] "gcr.io/team/app"
                  example_proc))
  = [mkWriteCall
       (name.mkReference (name.mkRepository "gcr.io" "team/app") "latest")
       example_remote "token"
       (remote.mkWriteOptions [name.mkRepository "gcr.io" "base/alpine"])].
Proof.
  destruct (pushImage_calls example_api example_remote
              [name.mkRepository "gcr.io" "base/alpine"] "gcr.io/team/app"
              example_proc _ _ eq_refl) as (Hw & _ & _).
  split; [exact Hw|reflexivity].
Defined.

(** What [run] leaves, stage by stage. *)
Lemma run_stages api p pr r pr' :
  run api p pr = (r, pr') →
  (* the fetch failed *)
  (∃ e, getImage api (BaseImage p) = Err e ∧ r = Err e ∧
        world pr' = world pr ∧ written pr' = written pr ∧
        stdout pr' = stdout pr ++ take 1 progress) ∨
  (* the build failed *)
  (∃ baseImage repository e w1,
     getImage api (BaseImage p) = OK (baseImage, repository) ∧
     buildNewImage (Files p) (Env p) (Cmd p) baseImage (world pr)
     = (Err e, w1) ∧
     r = Err e ∧ world pr' = w1 ∧ written pr' = written pr ∧
     stdout pr' = stdout pr ++ take 2 progress) ∨
  (* the push was tried *)
  (∃ baseImage repository finalImage w1 rp pp,
     getImage api (BaseImage p) = OK (baseImage, repository) ∧
     buildNewImage (Files p) (Env p) (Cmd p) baseImage (world pr)
     = (OK finalImage, w1) ∧
     pushImage api finalImage [repository] (Target p)
       (mkProc w1 (stdout pr ++ take 3 progress) (written pr))
     = (rp, pp) ∧
     world pr' = w1 ∧ written pr' = written pp ∧
     ((∃ e, rp = Err e ∧ r = Err e ∧
            stdout pr' = stdout pr ++ take 3 progress) ∨
      (rp = OK tt ∧ r = OK tt ∧ stdout pr' = stdout pr ++ progress))).
Proof.
  unfold run, pbind, Println, liftR, liftM, pret. cbn [world stdout written].
  destruct (getImage api (BaseImage p)) as [[baseImage repository]|e] eqn:Hget;
    cbn [world stdout written].
  - destruct (buildNewImage (Files p) (Env p) (Cmd p) baseImage (world pr))
      as [[finalImage|e] w1] eqn:Hbuild; cbn [world stdout written].
    + rewrite <- !app_assoc. cbn [app].
      match goal with
      | |- context [pushImage ?a ?b ?c ?d ?s] =>
          destruct (pushImage a b c d s) as [rp pp] eqn:Hpush
      end.
      pose proof (pushImage_calls _ _ _ _ _ _ _ Hpush) as (Hw & Hout & _).
      cbn in Hw, Hout.
      intros H. right. right.
      exists baseImage, repository, finalImage, w1, rp, pp.
      do 3 (split; [done|]).
      destruct rp as [[]|e]; injection H as <- <-; cbn.
      * do 2 (split; [done|]). right. repeat split.
        by rewrite Hout, <- app_assoc.
      * do 2 (split; [done|]). left. exists e. by repeat split.
    + intros [= <- <-]. right. left.
      exists baseImage, repository, e, w1. cbn. repeat split; try done.
      by rewrite <- app_assoc.
  - intros [= <- <-]. left. exists e. by repeat split.
Qed.

(** X16: [run] calls [remote.Write] at most once, and only after the base
    image was fetched and the new image built from it: the call is for the
    parsed target, with the image that [buildNewImage] returned and with
    the repository of the base image as the one mount path.  When the fetch
    or the build fails, nothing is written. *)
Theorem run_writes_once api p pr r pr' :
  run api p pr = (r, pr') →
  written pr' = written pr ∨
  ∃ baseImage repository finalImage w1 destRef auth,
    getImage api (BaseImage p) = OK (baseImage, repository) ∧
    buildNewImage (Files p) (Env p) (Cmd p) baseImage (world pr)
    = (OK finalImage, w1) ∧
    world pr' = w1 ∧
    api_ParseReference api (Target p) = OK destRef ∧
    api_Resolve api (name.Registry (name.Context destRef)) = OK auth ∧
    written pr'
    = written pr
      ++ [mkWriteCall destRef finalImage auth
            (remote.mkWriteOptions [repository])].
Proof.
  intros H.
  destruct (run_stages _ _ _ _ _ H)
    as [(e & _ & _ & _ & Hw & _)
       |[(b & repo & e & w1 & _ & _ & _ & _ & Hw & _)
        |(b & repo & fin & w1 & rp & pp & Hget & Hbuild & Hpush & Hworld & Hw
          & _)]]; [by left..|].
  destruct (pushImage_calls _ _ _ _ _ _ _ Hpush)
    as (_ & _ & [[Hsame _]|(destRef & auth & Hparse & Hauth & Hcall & _)]).
  - left. by rewrite Hw, Hsame.
  - right. exists b, repo, fin, w1, destRef, auth.
    repeat split; try done. by rewrite Hw, Hcall.
Qed.

Lemma run_writes_once_witness :
  written (snd (run example_api example_params example_proc))
  = written example_proc ∨
  ∃ baseImage repository finalImage w1 destRef auth,
    getImage example_api (BaseImage example_params)
    = OK (baseImage, repository) ∧
    buildNewImage (Files example_params) (Env example_params)
      (Cmd example_params) baseImage (world example_proc)
    = (OK finalImage, w1) ∧
    world (snd (run example_api example_params example_proc)) = w1 ∧
    api_ParseReference example_api (Target example_params) = OK destRef ∧
    api_Resolve example_api (name.Registry (name.Context destRef)) = OK auth ∧
    written (snd (run example_api example_params example_proc))
    = written example_proc
      ++ [mkWriteCall destRef finalImage auth
            (remote.mkWriteOptions [repository])].
Proof.
  apply (run_writes_once example_api example_params example_proc
           (fst (run example_api example_params example_proc))).
  reflexivity.
Defined.



(** X18: the target URL is looked at last.  When the base image is fetched
    and the new image built but the target URL does not parse, [main] exits
    with status 1 and the message "Error: parsing destination URL (URL):
    ..." after the three lines of progress; the world is the one the build
    left, and nothing was written to the registry. *)
Theorem main_bad_target api p pr baseImage repository finalImage w1 e :
  getImage api (BaseImage p) = OK (baseImage, repository) →
  buildNewImage (Files p) (Env p) (Cmd p) baseImage (world pr)
  = (OK finalImage, w1) →
  api_ParseReference api (Target p) = Err e →
  main api p pr
  = ((1, "Error: parsing destination URL (" +:+ Target p +:+ "): "
         +:+ errors.Error e),
     mkProc w1 (stdout pr ++ take 3 progress) (written pr)).
Proof.
  intros Hget Hbuild Hparse.
  unfold main, run, pbind, Println, liftR, liftM, pret.
  cbn [world stdout written]. rewrite Hget. cbn [world stdout written].
  rewrite Hbuild. cbn [world stdout written].
  unfold pushImage, pbind, liftR, wrapf. rewrite Hparse.
  cbn [wrap errors.Error].
  rewrite <- !app_assoc. cbn [app take progress].
  by rewrite !append_assoc.
Qed.

Lemma main_bad_target_witness :
  main example_api
    (mkParams "not a reference" "gcr.io/base/alpine" ["app"] [] "/app")
    example_proc
  = ((1, "Error: parsing destination URL (" +:+ "not a reference" +:+ "): "
         +:+ errors.Error (errors.New "could not parse reference")),
     mkProc
       (snd (buildNewImage ["app"] [] "/app" example_remote example_world))
       (stdout example_proc ++ take 3 progress) (written example_proc)).
Proof.
  apply (main_bad_target example_api
           (mkParams "not a reference" "gcr.io/base/alpine" ["app"] [] "/app")
           example_proc example_remote
           (name.mkRepository "gcr.io" "base/alpine")
           (image_of (buildNewImage ["app"] [] "/app" example_remote
                        example_world)));
    reflexivity.
Defined.

